(** * Lazy streams and tree streams of Langium

    A shallow embedding of [StreamImpl], its combinators, the [stream]
    factory and [TreeStreamImpl], followed by the properties of the
    sequence engine that were checked against it. *)

From Stdlib Require Import List ZArith Bool String Ascii Arith Lia.
From Equations Require Import Equations.
Import ListNotations.

Set Implicit Arguments.
Set Warnings "-register-all".

(** ** Values of the host language *)

(** The run-time values that stream elements range over.  Arrays and
    objects carry the identity ([ref]) that [===] and [Set] compare;
    numbers are integers (no fractions, no [NaN]).  [VArrayLike] is an
    object with a numeric [length] and indexed properties that has no
    [Symbol.iterator] function. *)
Inductive value : Type :=
| VUndefined
| VNull
| VBoolean (b : bool)
| VNumber (n : Z)
| VString (s : string)
| VArray (ref : nat) (items : list value)
| VArrayLike (ref : nat) (items : list value)
| VObject (ref : nat).

(** [v === undefined]. *)
Definition is_undefined (v : value) : bool :=
  match v with VUndefined => true | _ => false end.

(** The key comparison of the built-in [Set] (SameValueZero): primitives
    by content, objects by identity. *)
Definition sameValueZero (a b : value) : bool :=
  match a, b with
  | VUndefined, VUndefined => true
  | VNull, VNull => true
  | VBoolean x, VBoolean y => Bool.eqb x y
  | VNumber x, VNumber y => Z.eqb x y
  | VString x, VString y => String.eqb x y
  | VArray r _, VArray r' _ => Nat.eqb r r'
  | VArrayLike r _, VArrayLike r' _ => Nat.eqb r r'
  | VObject r, VObject r' => Nat.eqb r r'
  | _, _ => false
  end.

(** ** Outcomes and the store-passing monad *)

Inductive exn : Type := TypeError.

(** What a call does: it returns, it throws, or the fuel that bounds
    its loops ran out before it returned. *)
Inductive result (A : Type) : Type :=
| Ok (a : A)
| Throw (e : exn)
| OutOfFuel.
Arguments Throw {A} e.
Arguments OutOfFuel {A}.

(** A computation over the mutable objects [H] that closures captured. *)
Definition M (H A : Type) : Type := H -> result (A * H).

Definition ret {H A} (a : A) : M H A := fun h => Ok (a, h).

Definition bind {H A B} (m : M H A) (k : A -> M H B) : M H B :=
  fun h =>
    match m h with
    | Ok (a, h') => k a h'
    | Throw e => Throw e
    | OutOfFuel => OutOfFuel
    end.

Definition lift {H A} (r : result A) : M H A :=
  fun h =>
    match r with
    | Ok a => Ok (a, h)
    | Throw e => Throw e
    | OutOfFuel => OutOfFuel
    end.

(** Run a computation on the left or the right half of a pair of stores. *)
Definition on_fst {H1 H2 A} (m : M H1 A) : M (H1 * H2) A :=
  fun h =>
    match m (fst h) with
    | Ok (a, h1) => Ok (a, (h1, snd h))
    | Throw e => Throw e
    | OutOfFuel => OutOfFuel
    end.

Definition on_snd {H1 H2 A} (m : M H2 A) : M (H1 * H2) A :=
  fun h =>
    match m (snd h) with
    | Ok (a, h2) => Ok (a, (fst h, h2))
    | Throw e => Throw e
    | OutOfFuel => OutOfFuel
    end.

Declare Scope stream_scope.
Delimit Scope stream_scope with stream.
Notation "x <- m ;; k" := (bind m (fun x => k))
  (at level 61, m at next level, right associativity) : stream_scope.
Notation "' p <- m ;; k" := (bind m (fun x => let 'p := x in k))
  (at level 61, p pattern, m at next level, right associativity) : stream_scope.
Open Scope stream_scope.

(** ** Iterator results and host iterators *)

(** [IteratorResult<T, undefined>]: a produced value, or the shared
    frozen [DONE_RESULT] whose [value] is [undefined]. *)
Inductive IteratorResult : Type :=
| IteratorYieldResult (v : value)
| DONE_RESULT.

Definition done (r : IteratorResult) : bool :=
  match r with IteratorYieldResult _ => false | DONE_RESULT => true end.

Definition value_of (r : IteratorResult) : value :=
  match r with IteratorYieldResult v => v | DONE_RESULT => VUndefined end.

(** [typeof obj[Symbol.iterator] === 'function'].  Reading a property of
    [undefined] or [null] throws. *)
Definition isIterable (obj : value) : result bool :=
  match obj with
  | VUndefined | VNull => Throw TypeError
  | VString _ | VArray _ _ => Ok true
  | VBoolean _ | VNumber _ | VArrayLike _ _ | VObject _ => Ok false
  end.

Fixpoint characters (s : string) : list value :=
  match s with
  | EmptyString => []
  | String c s' => VString (String c EmptyString) :: characters s'
  end.

(** [obj[Symbol.iterator]()] for a host iterable: the iterator is
    represented by the items it has still to produce. *)
Definition Symbol_iterator (obj : value) : list value :=
  match obj with
  | VArray _ items => items
  | VString s => characters s
  | _ => []
  end.

(** [iterator.next()] on a host iterator. *)
Definition host_next (iterator : list value) : IteratorResult * list value :=
  match iterator with
  | [] => (DONE_RESULT, [])
  | v :: rest => (IteratorYieldResult v, rest)
  end.

(** ** [StreamImpl] *)

(** [StreamImpl<S, T>]: [startFn] creates the state of an iteration and
    [nextFn] advances it.  [State] is [S].  [Store] is the type of the
    mutable objects the two closures captured when the stream value was
    built, and [captured] their contents at that moment; every cursor
    of the stream works on these same objects, so they are threaded
    through all calls. *)
Record StreamImpl : Type := {
  Store : Type;
  State : Type;
  captured : Store;
  startFn : M Store State;
  nextFn : State -> M Store (IteratorResult * State)
}.

(** [iterator()]: the cursor is its state; [next()] is [nextFn] on it. *)
Definition iterator (this : StreamImpl) : M (Store this) (State this) :=
  startFn this.

Definition next (this : StreamImpl) (it : State this)
  : M (Store this) (IteratorResult * State this) :=
  nextFn this it.

(** [isEmpty()] *)
Definition isEmpty (this : StreamImpl) : M (Store this) bool :=
  it <- iterator this ;;
  '(r, _) <- next this it ;;
  ret (done r).

(** The [do ... while (!next.done)] loop of [toArray]. *)
Fixpoint toArray_loop (fuel : nat) (this : StreamImpl) (it : State this)
    (result : list value) : M (Store this) (list value) :=
  match fuel with
  | O => fun _ => OutOfFuel
  | S fuel' =>
      '(nxt, it') <- next this it ;;
      let result' :=
        if negb (is_undefined (value_of nxt))
        then result ++ [value_of nxt] else result in
      if negb (done nxt) then toArray_loop fuel' this it' result'
      else ret result'
  end.

(** [toArray()] *)
Definition toArray (fuel : nat) (this : StreamImpl)
  : M (Store this) (list value) :=
  it <- iterator this ;;
  toArray_loop fuel this it [].

(** Draining a cursor through the iteration protocol ([for ... of]):
    every produced value up to the first exhausted result, and the
    cursor it leaves behind. *)
Fixpoint drain (fuel : nat) (this : StreamImpl) (it : State this)
  : M (Store this) (list value * State this) :=
  match fuel with
  | O => fun _ => OutOfFuel
  | S fuel' =>
      '(nxt, it') <- next this it ;;
      match nxt with
      | DONE_RESULT => ret ([], it')
      | IteratorYieldResult v =>
          '(vs, it'') <- drain fuel' this it' ;;
          ret (v :: vs, it'')
      end
  end.

(** A fresh cursor drained. *)
Definition iterate (fuel : nat) (this : StreamImpl)
  : M (Store this) (list value) :=
  it <- iterator this ;;
  '(vs, _) <- drain fuel this it ;;
  ret vs.

(** ** The factory and the sentinels *)

(** [EMPTY_STREAM] *)
Definition EMPTY_STREAM : StreamImpl := {|
  Store := unit;
  State := unit;
  captured := tt;
  startFn := ret tt;
  nextFn := fun st => ret (DONE_RESULT, st)
|}.

(** The stream [stream] builds for an iterable collection. *)
Definition iterable_stream (collection : value) : StreamImpl := {|
  Store := unit;
  State := list value;
  captured := tt;
  startFn := ret (Symbol_iterator collection);
  nextFn := fun iterator => ret (host_next iterator)
|}.

(** The stream [stream] builds for an array-like collection; the state
    is [{ index }]. *)
Definition arraylike_stream (items : list value) : StreamImpl := {|
  Store := unit;
  State := nat;
  captured := tt;
  startFn := ret 0;
  nextFn := fun index =>
    if index <? List.length items
    then ret (IteratorYieldResult (nth index items VUndefined), S index)
    else ret (DONE_RESULT, index)
|}.

(** [stream(collection)] for a collection that is not itself a
    [StreamImpl]. *)
Definition stream (collection : value) : result StreamImpl :=
  match isIterable collection with
  | Ok true => Ok (iterable_stream collection)
  | Ok false =>
      match collection with
      | VArrayLike _ items => Ok (arraylike_stream items)
      | _ => Ok EMPTY_STREAM
      end
  | Throw e => Throw e
  | OutOfFuel => OutOfFuel
  end.


(** [stream(array)] for an array literal. *)
Definition of_array (items : list value) : StreamImpl :=
  iterable_stream (VArray 0 items).

(** ** Combinators *)

(** The state of a [concat] cursor. *)
Record ConcatState (S : Type) : Type := {
  first : S;
  firstDone : bool
}.

(** [iterator.next()] on an iterator object that a closure captured:
    the object holds the cursor state of the iterable it came from,
    next to the objects that iterable's own closures captured. *)
Definition captured_next (other : StreamImpl)
  : M (State other * Store other) IteratorResult :=
  fun c =>
    match next other (fst c) (snd c) with
    | Ok ((r, it'), h') => Ok (r, (it', h'))
    | Throw e => Throw e
    | OutOfFuel => OutOfFuel
    end.

(** The second loop of [concat]'s step function. *)
Definition concat_rest (this other : StreamImpl)
    (state : ConcatState (State this))
  : M (Store this * (State other * Store other))
      (IteratorResult * ConcatState (State this)) :=
  result <- on_snd (captured_next other) ;;
  if negb (done result) then ret (result, state)
  else ret (DONE_RESULT, state).

(** The [new StreamImpl(...)] that [concat] returns; [iterator] and
    [h_other] are the contents of the captured iterator object when it
    is created. *)
Definition concat_stream (this other : StreamImpl)
    (iterator : State other) (h_other : Store other) : StreamImpl := {|
  Store := Store this * (State other * Store other);
  State := ConcatState (State this);
  captured := (captured this, (iterator, h_other));
  startFn :=
    s <- on_fst (startFn this) ;;
    ret {| first := s; firstDone := false |};
  nextFn := fun state =>
    if negb (firstDone state) then
      '(result, s') <- on_fst (nextFn this (first state)) ;;
      if negb (done result)
      then ret (result, {| first := s'; firstDone := false |})
      else concat_rest this other {| first := s'; firstDone := true |}
    else concat_rest this other state
|}.

(** [concat(other)].  [other] is any iterable, given by its start and
    step functions (an array [a] is [of_array a]).  Its iterator is
    created once, by [const iterator = other[Symbol.iterator]()] when
    [concat] is called, and the step function closes over it; creating
    it may throw, and then [concat] throws.  The objects captured by
    [this] and by [other] are taken to be disjoint. *)
Definition concat (this other : StreamImpl) : result StreamImpl :=
  match iterator other (captured other) with
  | Ok (iterator, h_other) => Ok (concat_stream this other iterator h_other)
  | Throw e => Throw e
  | OutOfFuel => OutOfFuel
  end.

(** [map(callbackfn)] *)
Definition map (callbackfn : value -> value) (this : StreamImpl)
  : StreamImpl := {|
  Store := Store this;
  State := State this;
  captured := captured this;
  startFn := startFn this;
  nextFn := fun state =>
    '(r, state') <- nextFn this state ;;
    if done r then ret (DONE_RESULT, state')
    else ret (IteratorYieldResult (callbackfn (value_of r)), state')
|}.

(** The [do ... while (!result.done)] loop of [filter]'s step function.
    The predicate is a closure: it may read and update the objects [P]
    it captured, and its result is already coerced to a boolean. *)
Fixpoint filter_loop (fuel : nat) (this : StreamImpl) (P : Type)
    (predicate : value -> M P bool) (state : State this)
  : M (Store this * P) (IteratorResult * State this) :=
  match fuel with
  | O => fun _ => OutOfFuel
  | S fuel' =>
      '(result, state') <- on_fst (nextFn this state) ;;
      if done result then ret (DONE_RESULT, state')
      else
        keep <- on_snd (predicate (value_of result)) ;;
        if keep then ret (result, state')
        else filter_loop fuel' this predicate state'
  end.

(** [filter(predicate)]; [env] is the contents of the objects the
    predicate captured when [filter] is called. *)
Definition filter (fuel : nat) (P : Type) (env : P)
    (predicate : value -> M P bool) (this : StreamImpl) : StreamImpl := {|
  Store := Store this * P;
  State := State this;
  captured := (captured this, env);
  startFn := on_fst (startFn this);
  nextFn := filter_loop fuel this predicate
|}.

(** The [while (!next.done)] loop of [reduce]. *)
Fixpoint reduce_loop (fuel : nat) (this : StreamImpl)
    (callbackfn : value -> value -> value) (it : State this)
    (nxt : IteratorResult) (previousValue : value)
  : M (Store this) value :=
  match fuel with
  | O => fun _ => OutOfFuel
  | S fuel' =>
      if negb (done nxt) then
        let previousValue' :=
          if is_undefined previousValue then value_of nxt
          else callbackfn previousValue (value_of nxt) in
        '(nxt', it') <- next this it ;;
        reduce_loop fuel' this callbackfn it' nxt' previousValue'
      else ret previousValue
  end.

(** [reduce(callbackfn, initialValue?)]; an omitted [initialValue] is
    [undefined]. *)
Definition reduce (fuel : nat) (callbackfn : value -> value -> value)
    (initialValue : value) (this : StreamImpl) : M (Store this) value :=
  it <- iterator this ;;
  '(nxt, it') <- next this it ;;
  reduce_loop fuel this callbackfn it' nxt initialValue.

(** [recursiveReduce(iterator, callbackfn, initialValue?)]; the fuel is
    the depth of the call stack. *)
Fixpoint recursiveReduce (fuel : nat) (this : StreamImpl) (it : State this)
    (callbackfn : value -> value -> value) (initialValue : value)
  : M (Store this) value :=
  match fuel with
  | O => fun _ => OutOfFuel
  | S fuel' =>
      '(nxt, it') <- next this it ;;
      if done nxt then ret initialValue
      else
        previousValue <-
          recursiveReduce fuel' this it' callbackfn initialValue ;;
        if is_undefined previousValue then ret (value_of nxt)
        else ret (callbackfn previousValue (value_of nxt))
  end.

(** [reduceRight(callbackfn, initialValue?)] *)
Definition reduceRight (fuel : nat) (callbackfn : value -> value -> value)
    (initialValue : value) (this : StreamImpl) : M (Store this) value :=
  it <- iterator this ;;
  recursiveReduce fuel this it callbackfn initialValue.

(** [FlatMapState]: the source's fields [this] and [iterator]. *)
Record FlatMapState (S : Type) : Type := {
  fm_this : S;
  fm_iterator : option (list value)
}.

(** The [do ... while (state.iterator)] loop of [flatMap]'s step
    function. *)
Fixpoint flatMap_loop (fuel : nat) (this : StreamImpl)
    (callbackfn : value -> value) (state : FlatMapState (State this))
  : M (Store this) (IteratorResult * FlatMapState (State this)) :=
  match fuel with
  | O => fun _ => OutOfFuel
  | S fuel' =>
      let pull :=
        '(r, s') <- nextFn this (fm_this state) ;;
        if negb (done r) then
          let mapped := callbackfn (value_of r) in
          iterable <- lift (isIterable mapped) ;;
          if (iterable : bool) then
            flatMap_loop fuel' this callbackfn
              {| fm_this := s';
                 fm_iterator := Some (Symbol_iterator mapped) |}
          else
            ret (IteratorYieldResult mapped,
                 {| fm_this := s'; fm_iterator := None |})
        else ret (DONE_RESULT, {| fm_this := s'; fm_iterator := None |}) in
      match fm_iterator state with
      | Some it =>
          match host_next it with
          | (IteratorYieldResult v, it') =>
              ret (IteratorYieldResult v,
                   {| fm_this := fm_this state; fm_iterator := Some it' |})
          | (DONE_RESULT, _) => pull
          end
      | None => pull
      end
  end.

(** [flatMap(callbackfn)] *)
Definition flatMap (fuel : nat) (callbackfn : value -> value)
    (this : StreamImpl) : StreamImpl := {|
  Store := Store this;
  State := FlatMapState (State this);
  captured := captured this;
  startFn :=
    s <- startFn this ;;
    ret {| fm_this := s; fm_iterator := None |};
  nextFn := flatMap_loop fuel this callbackfn
|}.

(** The loop of the step function that [flat] builds around [stream]. *)
Fixpoint flat_loop (fuel : nat) (stream : StreamImpl)
    (state : FlatMapState (State stream))
  : M (Store stream) (IteratorResult * FlatMapState (State stream)) :=
  match fuel with
  | O => fun _ => OutOfFuel
  | S fuel' =>
      let pull :=
        '(r, s') <- nextFn stream (fm_this state) ;;
        if negb (done r) then
          iterable <- lift (isIterable (value_of r)) ;;
          if (iterable : bool) then
            flat_loop fuel' stream
              {| fm_this := s';
                 fm_iterator := Some (Symbol_iterator (value_of r)) |}
          else
            ret (IteratorYieldResult (value_of r),
                 {| fm_this := s'; fm_iterator := None |})
        else ret (DONE_RESULT, {| fm_this := s'; fm_iterator := None |}) in
      match fm_iterator state with
      | Some it =>
          match host_next it with
          | (IteratorYieldResult v, it') =>
              ret (IteratorYieldResult v,
                   {| fm_this := fm_this state; fm_iterator := Some it' |})
          | (DONE_RESULT, _) => pull
          end
      | None => pull
      end
  end.

(** The [new StreamImpl<FlatMapState, T>(...)] that [flat] returns. *)
Definition flat_once (fuel : nat) (stream : StreamImpl) : StreamImpl := {|
  Store := Store stream;
  State := FlatMapState (State stream);
  captured := captured stream;
  startFn :=
    s <- startFn stream ;;
    ret {| fm_this := s; fm_iterator := None |};
  nextFn := flat_loop fuel stream
|}.

(** [flat(depth = 1)] for an integral [depth]. *)
Equations? flat (fuel : nat) (depth : Z) (this : StreamImpl)
  : StreamImpl by wf (Z.to_nat depth) lt :=
  flat fuel depth this with Z_le_gt_dec depth 0 => {
    | left _ => this
    | right _ =>
        flat_once fuel
          (if (1 <? depth)%Z then flat fuel (depth - 1) this else this) }.
Proof. lia. Qed.

(** [head()] *)
Definition head (this : StreamImpl) : M (Store this) value :=
  it <- iterator this ;;
  '(r, _) <- next this it ;;
  if done r then ret VUndefined else ret (value_of r).

(** The [for] loop of [tail]'s start function, with [n] rounds left. *)
Fixpoint tail_skip (n : nat) (this : StreamImpl) (state : State this)
  : M (Store this) (State this) :=
  match n with
  | O => ret state
  | S n' =>
      '(nxt, state') <- nextFn this state ;;
      if done nxt then ret state' else tail_skip n' this state'
  end.

(** [tail(skipCount = 1)] for an integral [skipCount]: the loop
    [for (let i = 0; i < skipCount; i++)] makes [Z.to_nat skipCount]
    rounds at most. *)
Definition tail (skipCount : Z) (this : StreamImpl) : StreamImpl := {|
  Store := Store this;
  State := State this;
  captured := captured this;
  startFn :=
    state <- startFn this ;;
    tail_skip (Z.to_nat skipCount) this state;
  nextFn := nextFn this
|}.

(** The built-in [Set]: its keys in insertion order. *)
Definition JsSet : Type := list value.

Definition set_has (set : JsSet) (v : value) : bool :=
  existsb (sameValueZero v) set.

Definition set_add (set : JsSet) (v : value) : JsSet :=
  if set_has set v then set else set ++ [v].

(** The predicate that [distinct] hands to [filter]; it closes over
    [set]. *)
Definition distinct_predicate (by_ : option (value -> value)) (e : value)
  : M JsSet bool :=
  fun set =>
    let value := match by_ with Some f => f e | None => e end in
    if set_has set value then Ok (false, set)
    else Ok (true, set_add set value).

(** [distinct(by?)]: [const set = new Set()] is evaluated when
    [distinct] is called. *)
Definition distinct (fuel : nat) (by_ : option (value -> value))
    (this : StreamImpl) : StreamImpl :=
  filter fuel (P := JsSet) [] (distinct_predicate by_) this.

(** ** [TreeStreamImpl] *)

(** The state of a tree cursor.  [iterators] is used as a stack: the
    head of the list is the last entry of the source's array.  An
    iterator over the children of a node is the list of the children it
    has still to produce. *)
Record TreeState : Type := {
  iterators : list (list value);
  pruned : bool
}.

(** The [while (state.iterators.length > 0)] loop of the step function. *)
Fixpoint tree_loop (children : value -> list value)
    (iterators : list (list value)) : IteratorResult * list (list value) :=
  match iterators with
  | [] => (DONE_RESULT, [])
  | [] :: below => tree_loop children below
  | (v :: iterator) :: below =>
      (IteratorYieldResult v, children v :: iterator :: below)
  end.

(** [new TreeStreamImpl(root, children)]; [children] returns the
    (finite) list of what the iterable of children produces. *)
Definition TreeStreamImpl (root : value) (children : value -> list value)
  : StreamImpl := {|
  Store := unit;
  State := TreeState;
  captured := tt;
  startFn := ret {| iterators := [children root]; pruned := false |};
  nextFn := fun state =>
    let iterators0 :=
      if pruned state then tl (iterators state) else iterators state in
    let '(r, iterators') := tree_loop children iterators0 in
    ret (r, {| iterators := iterators'; pruned := false |})
|}.

(** [prune()] on a tree iterator. *)
Definition prune (state : TreeState) : TreeState :=
  {| iterators := iterators state; pruned := true |}.

(** ** What a cursor produces *)

Definition defined (v : value) : bool := negb (is_undefined v).

(** [yields s it h vs it' h']: from cursor [it] and store [h], the
    successive [next()] calls produce exactly the values [vs] and then
    report exhaustion, leaving cursor [it'] and store [h']. *)
Inductive yields (s : StreamImpl)
  : State s -> Store s -> list value -> State s -> Store s -> Prop :=
| yields_done : forall it h it' h',
    next s it h = Ok ((DONE_RESULT, it'), h') ->
    yields s it h [] it' h'
| yields_more : forall it h v it1 h1 vs it' h',
    next s it h = Ok ((IteratorYieldResult v, it1), h1) ->
    yields s it1 h1 vs it' h' ->
    yields s it h (v :: vs) it' h'.

(** [produces s it h vs it' h']: [length vs] calls of [next()] produce
    the values [vs], none reporting exhaustion, and lead to cursor [it']
    and store [h']. *)
Inductive produces (s : StreamImpl)
  : State s -> Store s -> list value -> State s -> Store s -> Prop :=
| produces_nil : forall it h, produces s it h [] it h
| produces_cons : forall it h v it1 h1 vs it' h',
    next s it h = Ok ((IteratorYieldResult v, it1), h1) ->
    produces s it1 h1 vs it' h' ->
    produces s it h (v :: vs) it' h'.

(** Stable termination, one call deep: an exhausted cursor reports
    exhaustion again. *)
Definition stays_exhausted (s : StreamImpl) (it : State s) (h : Store s)
  : Prop :=
  exists it' h', next s it h = Ok ((DONE_RESULT, it'), h').

(** Two cursors over one stream value, drained one after the other. *)
Definition iterate_twice (fuel : nat) (s : StreamImpl)
  : result (list value * list value) :=
  match iterate fuel s (captured s) with
  | Ok (vs1, h1) =>
      match iterate fuel s h1 with
      | Ok (vs2, _) => Ok (vs1, vs2)
      | Throw e => Throw e
      | OutOfFuel => OutOfFuel
      end
  | Throw e => Throw e
  | OutOfFuel => OutOfFuel
  end.

(** The body of the loops of [reduce] and [recursiveReduce]: an
    accumulator that is [undefined] counts as absent. *)
Definition seed_or_combine (callbackfn : value -> value -> value)
    (previousValue currentValue : value) : value :=
  if is_undefined previousValue then currentValue
  else callbackfn previousValue currentValue.

(** The reduce contract in the words of the specification: with an
    initial value the fold starts from it; without one the first
    visited element seeds the accumulator; an empty sequence without an
    initial value has no result. *)
Definition reduce_contract (combine : value -> value -> value)
    (initial : option value) (visited : list value) : option value :=
  match initial with
  | Some i => Some (fold_left combine visited i)
  | None =>
      match visited with
      | [] => None
      | x :: rest => Some (fold_left combine rest x)
      end
  end.

(** The reference strategy for [reduceRight] in the words of the
    specification: buffer the elements, reverse the buffer, fold it
    iteratively under the reduce contract. *)
Definition reduceRight_buffered (combine : value -> value -> value)
    (initial : option value) (elements : list value) : option value :=
  reduce_contract combine initial (rev elements).

(** How the source passes an optional argument and reports "no result". *)
Definition optional (o : option value) : value :=
  match o with Some v => v | None => VUndefined end.





(** A callback for examples: the sum of two numbers, 0 on anything
    else. *)
Definition add (x y : value) : value :=
  match x, y with
  | VNumber a, VNumber b => VNumber (a + b)
  | _, _ => VNumber 0
  end.

(** ** Finite trees *)

(** A finite tree of values; it describes the unfolding of a root
    under a children function. *)
Inductive tree : Type :=
| Node (label : value) (kids : list tree).

Definition label (t : tree) : value := match t with Node v _ => v end.
Definition kids (t : tree) : list tree := match t with Node _ ks => ks end.

Fixpoint size (t : tree) : nat :=
  match t with Node _ ks => S (list_sum (List.map size ks)) end.

(** Pre-order: a node before its descendants, a left sibling's subtree
    before the right sibling. *)
Fixpoint preorder (t : tree) : list value :=
  match t with Node v ks => v :: flat_map preorder ks end.

(** All proper descendants of the root of [t], in pre-order. *)
Definition descendants (t : tree) : list value :=
  flat_map preorder (kids t).

(** [t] is the tree that [children] unfolds from [label t]. *)
Inductive unfolds (children : value -> list value) : tree -> Prop :=
| unfolds_node : forall v ks,
    children v = List.map label ks ->
    Forall (unfolds children) ks ->
    unfolds children (Node v ks).

(** [subtree s t]: [s] sits strictly below the root of [t]. *)
Inductive subtree : tree -> tree -> Prop :=
| subtree_kid : forall k t, In k (kids t) -> subtree k t
| subtree_below : forall s k t, In k (kids t) -> subtree s k -> subtree s t.

(** The tree A -> [B, C], B -> [D] and its children function. *)
Definition example_children (v : value) : list value :=
  match v with
  | VString "A" => [VString "B"; VString "C"]
  | VString "B" => [VString "D"]
  | _ => []
  end%string.

Definition example_tree : tree :=
  Node (VString "A")
    [Node (VString "B") [Node (VString "D") []]; Node (VString "C") []].

(** The cursors of a stack of forests, and the work left in it. *)
Definition labels (fs : list (list tree)) : list (list value) :=
  List.map (List.map label) fs.

Definition forest_size (f : list tree) : nat :=
  list_sum (List.map size f).

(** The state of a tree cursor, with no prune pending, whose stack
    holds the iterators over the forests [fs]. *)
Definition unpruned (fs : list (list tree)) : TreeState :=
  {| iterators := labels fs; pruned := false |}.

Definition stack_weight (fs : list (list tree)) : nat :=
  2 * list_sum (List.map forest_size fs) + List.length fs.

Definition remaining (fs : list (list tree)) : list value :=
  flat_map (flat_map preorder) fs.

(** ** The consumers that scan a stream *)

(** [a === b]; without [NaN] and fractions it is the comparison of
    [Set] keys. *)
Definition strict_equals (a b : value) : bool :=
  match a, b with
  | VUndefined, VUndefined => true
  | VNull, VNull => true
  | VBoolean x, VBoolean y => Bool.eqb x y
  | VNumber x, VNumber y => Z.eqb x y
  | VString x, VString y => String.eqb x y
  | VArray r _, VArray r' _ => Nat.eqb r r'
  | VArrayLike r _, VArrayLike r' _ => Nat.eqb r r'
  | VObject r, VObject r' => Nat.eqb r r'
  | _, _ => false
  end.

(** The [while (!next.done)] loop of [indexOf]. *)
Fixpoint indexOf_loop (fuel : nat) (this : StreamImpl)
    (searchElement : value) (fromIndex : Z) (it : State this)
    (nxt : IteratorResult) (index : Z) : M (Store this) Z :=
  match fuel with
  | O => fun _ => OutOfFuel
  | S fuel' =>
      if negb (done nxt) then
        if (fromIndex <=? index)%Z
           && strict_equals (value_of nxt) searchElement
        then ret index
        else
          '(nxt', it') <- next this it ;;
          indexOf_loop fuel' this searchElement fromIndex it' nxt'
            (index + 1)%Z
      else ret (-1)%Z
  end.

(** [indexOf(searchElement, fromIndex = 0)] *)
Definition indexOf (fuel : nat) (searchElement : value) (fromIndex : Z)
    (this : StreamImpl) : M (Store this) Z :=
  it <- iterator this ;;
  '(nxt, it') <- next this it ;;
  indexOf_loop fuel this searchElement fromIndex it' nxt 0%Z.

(** The loop of [every]; the predicate's result is already coerced to
    a boolean. *)
Fixpoint every_loop (fuel : nat) (this : StreamImpl)
    (predicate : value -> bool) (it : State this) (nxt : IteratorResult)
  : M (Store this) bool :=
  match fuel with
  | O => fun _ => OutOfFuel
  | S fuel' =>
      if negb (done nxt) then
        if negb (predicate (value_of nxt)) then ret false
        else
          '(nxt', it') <- next this it ;;
          every_loop fuel' this predicate it' nxt'
      else ret true
  end.

(** [every(predicate)] *)
Definition every (fuel : nat) (predicate : value -> bool)
    (this : StreamImpl) : M (Store this) bool :=
  it <- iterator this ;;
  '(nxt, it') <- next this it ;;
  every_loop fuel this predicate it' nxt.

(** The loop of [some]. *)
Fixpoint some_loop (fuel : nat) (this : StreamImpl)
    (predicate : value -> bool) (it : State this) (nxt : IteratorResult)
  : M (Store this) bool :=
  match fuel with
  | O => fun _ => OutOfFuel
  | S fuel' =>
      if negb (done nxt) then
        if predicate (value_of nxt) then ret true
        else
          '(nxt', it') <- next this it ;;
          some_loop fuel' this predicate it' nxt'
      else ret false
  end.

(** [some(predicate)] *)
Definition some (fuel : nat) (predicate : value -> bool)
    (this : StreamImpl) : M (Store this) bool :=
  it <- iterator this ;;
  '(nxt, it') <- next this it ;;
  some_loop fuel this predicate it' nxt.

(** The loop of [forEach].  The callback is a closure over objects [P];
    what it returns is discarded. *)
Fixpoint forEach_loop (fuel : nat) (this : StreamImpl) (P : Type)
    (callbackfn : value -> Z -> M P unit) (it : State this)
    (nxt : IteratorResult) (index : Z) : M (Store this * P) unit :=
  match fuel with
  | O => fun _ => OutOfFuel
  | S fuel' =>
      if negb (done nxt) then
        _ <- on_snd (callbackfn (value_of nxt) index) ;;
        '(nxt', it') <- on_fst (next this it) ;;
        forEach_loop fuel' this callbackfn it' nxt' (index + 1)%Z
      else ret tt
  end.

(** [forEach(callbackfn)] *)
Definition forEach (fuel : nat) (P : Type)
    (callbackfn : value -> Z -> M P unit) (this : StreamImpl)
  : M (Store this * P) unit :=
  it <- on_fst (iterator this) ;;
  '(nxt, it') <- on_fst (next this it) ;;
  forEach_loop fuel this callbackfn it' nxt 0%Z.

(** The loop of [find]. *)
Fixpoint find_loop (fuel : nat) (this : StreamImpl)
    (predicate : value -> bool) (it : State this) (nxt : IteratorResult)
  : M (Store this) value :=
  match fuel with
  | O => fun _ => OutOfFuel
  | S fuel' =>
      if negb (done nxt) then
        if predicate (value_of nxt) then ret (value_of nxt)
        else
          '(nxt', it') <- next this it ;;
          find_loop fuel' this predicate it' nxt'
      else ret VUndefined
  end.

(** [find(predicate)] *)
Definition find (fuel : nat) (predicate : value -> bool)
    (this : StreamImpl) : M (Store this) value :=
  it <- iterator this ;;
  '(nxt, it') <- next this it ;;
  find_loop fuel this predicate it' nxt.

(** The loop of [findIndex]. *)
Fixpoint findIndex_loop (fuel : nat) (this : StreamImpl)
    (predicate : value -> bool) (it : State this) (nxt : IteratorResult)
    (index : Z) : M (Store this) Z :=
  match fuel with
  | O => fun _ => OutOfFuel
  | S fuel' =>
      if negb (done nxt) then
        if predicate (value_of nxt) then ret index
        else
          '(nxt', it') <- next this it ;;
          findIndex_loop fuel' this predicate it' nxt' (index + 1)%Z
      else ret (-1)%Z
  end.

(** [findIndex(predicate)] *)
Definition findIndex (fuel : nat) (predicate : value -> bool)
    (this : StreamImpl) : M (Store this) Z :=
  it <- iterator this ;;
  '(nxt, it') <- next this it ;;
  findIndex_loop fuel this predicate it' nxt 0%Z.

(** The loop of [includes]. *)
Fixpoint includes_loop (fuel : nat) (this : StreamImpl)
    (searchElement : value) (it : State this) (nxt : IteratorResult)
  : M (Store this) bool :=
  match fuel with
  | O => fun _ => OutOfFuel
  | S fuel' =>
      if negb (done nxt) then
        if strict_equals (value_of nxt) searchElement then ret true
        else
          '(nxt', it') <- next this it ;;
          includes_loop fuel' this searchElement it' nxt'
      else ret false
  end.

(** [includes(searchElement)] *)
Definition includes (fuel : nat) (searchElement : value)
    (this : StreamImpl) : M (Store this) bool :=
  it <- iterator this ;;
  '(nxt, it') <- next this it ;;
  includes_loop fuel this searchElement it' nxt.

(** ** [join] and [toString] *)

Section HostStrings.
(** The host's own [toString()] method of a value that is neither a
    string, nor [undefined], nor [null]. *)
Variable host_toString : value -> string.

(** The function [toString(item)].  Reading the [toString] property
    of [null] throws; every other value has the method, so the
    fallback to [Object.prototype.toString] is never taken. *)
Definition toString (item : value) : result string :=
  match item with
  | VString s => Ok s
  | VUndefined => Ok "undefined"%string
  | VNull => Throw TypeError
  | _ => Ok (host_toString item)
  end.

(** The [do ... while (!result.done)] loop of [join]. *)
Fixpoint join_loop (fuel : nat) (this : StreamImpl) (separator : string)
    (it : State this) (value : string) (addSeparator : bool)
  : M (Store this) string :=
  match fuel with
  | O => fun _ => OutOfFuel
  | S fuel' =>
      '(result, it') <- next this it ;;
      if negb (done result) then
        let value1 :=
          if addSeparator then (value ++ separator)%string else value in
        text <- lift (toString (value_of result)) ;;
        join_loop fuel' this separator it' (value1 ++ text)%string true
      else ret value
  end.

(** [join(separator = ',')] *)
Definition join (fuel : nat) (separator : string) (this : StreamImpl)
  : M (Store this) string :=
  it <- iterator this ;;
  join_loop fuel this separator it ""%string false.

(** The method [toString()] of a stream. *)
Definition Stream_toString (fuel : nat) (this : StreamImpl)
  : M (Store this) string :=
  join fuel ","%string this.
End HostStrings.

(** ** Callers in the grammar utilities *)

Section KeywordSearch.
(** [streamCst] is imported from [utils/cst-util], which is not part of
    these sources.  The search uses its cursor through [next()] and
    [prune()], the interface of a tree stream, of which [TreeStreamImpl]
    is the one implementation; [streamCst(node)] is therefore taken to
    be the tree stream rooted at [node], and its children function is
    the parameter [children]. *)
Variable children : value -> list value.
(** [n.element === element], for the [element] of the search. *)
Variable same_element : value -> bool.
(** [ast.isKeyword(n.feature) && n.feature.value === keyword]. *)
Variable is_keyword : value -> bool.

Definition streamCst (node : value) : StreamImpl :=
  TreeStreamImpl node children.

(** The [do ... while (!result.done)] loop of
    [findNodesForKeywordInternal]. *)
Fixpoint keyword_loop (fuel : nat) (node : value)
    (treeIterator : TreeState) (keywordNodes : list value)
  : result (list value) :=
  match fuel with
  | O => OutOfFuel
  | S fuel' =>
      match next (streamCst node) treeIterator tt with
      | Ok ((r, treeIterator'), _) =>
          if negb (done r) then
            let childNode := value_of r in
            if same_element childNode then
              keyword_loop fuel' node treeIterator'
                (if is_keyword childNode
                 then keywordNodes ++ [childNode] else keywordNodes)
            else
              keyword_loop fuel' node (prune treeIterator') keywordNodes
          else Ok keywordNodes
      | Throw e => Throw e
      | OutOfFuel => OutOfFuel
      end
  end.

(** [findNodesForKeywordInternal(node, keyword, element)] *)
Definition findNodesForKeywordInternal (fuel : nat) (node : value)
  : result (list value) :=
  if negb (same_element node) then Ok []
  else if is_keyword node then Ok [node]
  else
    match iterator (streamCst node) tt with
    | Ok (treeIterator, _) => keyword_loop fuel node treeIterator []
    | Throw e => Throw e
    | OutOfFuel => OutOfFuel
    end.

(** [findNodesForKeyword(node, keyword)]; [node] may be [undefined]. *)
Definition findNodesForKeyword (fuel : nat) (node : option value)
  : result (list value) :=
  match node with
  | None => Ok []
  | Some n => findNodesForKeywordInternal fuel n
  end.

(** [findNodeForKeyword(node, keyword, index?)] for an integral
    [index]. *)
Definition findNodeForKeyword (fuel : nat) (node : option value)
    (index : option Z) : result value :=
  match node with
  | None => Ok VUndefined
  | Some n =>
      match findNodesForKeywordInternal fuel n with
      | Ok nodes =>
          if Nat.eqb (List.length nodes) 0 then Ok VUndefined
          else
            let index' :=
              match index with
              | Some i =>
                  Z.max 0 (Z.min i (Z.of_nat (List.length nodes) - 1))
              | None => 0%Z
              end in
            Ok (nth (Z.to_nat index') nodes VUndefined)
      | Throw e => Throw e
      | OutOfFuel => OutOfFuel
      end
  end.

(** What the keyword search gets to see of a tree: a node whose
    element differs is left out together with everything below it. *)
Fixpoint visible (t : tree) : list value :=
  match t with
  | Node v ks =>
      if same_element v then v :: flat_map visible ks else []
  end.
End KeywordSearch.

(** ** The property search of the grammar utilities *)

Section PropertySearch.
(** [getContainerOfType(n.feature, ast.isAssignment)?.feature ===
    property]: the node was parsed for an assignment to [property]. *)
Variable assigns : string -> value -> bool.
(** [isCompositeCstNode(n) && n.element === element], for the
    [element] of the search. *)
Variable composite_of_element : value -> bool.

(** [findNodesForPropertyInternal(node, property, element, first)]; a
    CST node is given with its children, as a tree. *)
Fixpoint findNodesForPropertyInternal (property : string) (node : tree)
    (first : bool) : list value :=
  match node with
  | Node n nodeChildren =>
      if negb first && assigns property n then [n]
      else if composite_of_element n then
        flat_map
          (fun e => findNodesForPropertyInternal property e false)
          nodeChildren
      else []
  end.

(** [findNodesForProperty(node, property)]; both may be [undefined],
    and the empty string is as good as no property. *)
Definition findNodesForProperty (node : option tree)
    (property : option string) : list value :=
  match node, property with
  | Some n, Some p =>
      if String.eqb p "" then []
      else findNodesForPropertyInternal p n true
  | _, _ => []
  end.

(** [findNodeForProperty(node, property, index?)] for an integral
    [index]. *)
Definition findNodeForProperty (node : option tree)
    (property : option string) (index : option Z) : value :=
  match node, property with
  | Some n, Some p =>
      if String.eqb p "" then VUndefined
      else
        let nodes := findNodesForPropertyInternal p n true in
        if Nat.eqb (List.length nodes) 0 then VUndefined
        else
          let index' :=
            match index with
            | Some i => Z.max 0 (Z.min i (Z.of_nat (List.length nodes) - 1))
            | None => 0%Z
            end in
          nth (Z.to_nat index') nodes VUndefined
  | _, _ => VUndefined
  end.
End PropertySearch.

(** ** The generated reflection of the requirements-and-tests example *)

Module RequirementsAndTestsAstReflection.

Definition Contact : string := "Contact".
Definition Requirement : string := "Requirement".
Definition RequirementModel : string := "RequirementModel".
Definition Test : string := "Test".
Definition TestModel : string := "TestModel".

(** [getAllTypes()] *)
Definition getAllTypes : list string :=
  ["Contact"; "Requirement"; "RequirementModel"; "Test"; "TestModel"]%string.

(** [isSubtype(subtype, supertype)]: the [switch] has the default case
    only. *)
Definition isSubtype (subtype supertype : string) : bool :=
  if String.eqb subtype supertype then true else false.

(** [getReferenceType(refInfo)], given [refInfo.container.$type] and
    [refInfo.property]; [inl] is the message of the [Error] thrown. *)
Definition getReferenceType (container_type property : string)
  : string + string :=
  let referenceId := (container_type ++ ":" ++ property)%string in
  if String.eqb referenceId "Test:requirements" then inr Requirement
  else inl (referenceId ++ " is not a valid reference id.")%string.

(** [TypeMetaData]; a mandatory property is its name and its type. *)
Record TypeMetaData : Type := {
  name : string;
  mandatory : list (string * string)
}.

(** [getTypeMetaData(type)] *)
Definition getTypeMetaData (type : string) : TypeMetaData :=
  if String.eqb type "RequirementModel" then
    {| name := "RequirementModel";
       mandatory := [("requirements", "array")]%string |}
  else if String.eqb type "Test" then
    {| name := "Test"; mandatory := [("requirements", "array")]%string |}
  else if String.eqb type "TestModel" then
    {| name := "TestModel"; mandatory := [("tests", "array")]%string |}
  else {| name := type; mandatory := [] |}.

(** Whether a string holds a colon. *)
Fixpoint has_colon (s : string) : bool :=
  match s with
  | EmptyString => false
  | String c s' => Ascii.eqb c ":"%char || has_colon s'
  end.

End RequirementsAndTestsAstReflection.

(** ** Notions for the further properties *)

Definition fmap {H A B} (f : A -> B) (m : M H A) : M H B :=
  x <- m ;; ret (f x).

(** The common shape of the scanning loops: stop at the first element
    that passes [test], and return it with its index. *)
Fixpoint scan_loop (fuel : nat) (this : StreamImpl)
    (test : Z -> value -> bool) (it : State this) (nxt : IteratorResult)
    (index : Z) : M (Store this) (option (Z * value)) :=
  match fuel with
  | O => fun _ => OutOfFuel
  | S fuel' =>
      if negb (done nxt) then
        if test index (value_of nxt) then ret (Some (index, value_of nxt))
        else
          '(nxt', it') <- next this it ;;
          scan_loop fuel' this test it' nxt' (index + 1)%Z
      else ret None
  end.

(** The first element of [vs] that passes [test], counting from
    [index]. *)
Fixpoint first_match (test : Z -> value -> bool) (index : Z)
    (vs : list value) : option (Z * value) :=
  match vs with
  | [] => None
  | v :: rest =>
      if test index v then Some (index, v)
      else first_match test (index + 1)%Z rest
  end.

(** Stable termination: from this cursor on, every call of [next()]
    reports exhaustion. *)
Definition stable (s : StreamImpl) (it : State s) (h : Store s) : Prop :=
  exists I : State s -> Store s -> Prop,
    I it h
    /\ forall i g, I i g ->
         exists i' g', next s i g = Ok ((DONE_RESULT, i'), g') /\ I i' g'.

(** A filter whose predicate updates what it captured, on a list. *)
Fixpoint filter_run (P : Type) (step : value -> P -> bool * P) (env : P)
    (vs : list value) : list value * P :=
  match vs with
  | [] => ([], env)
  | v :: rest =>
      let '(keep, env') := step v env in
      let '(out, envf) := filter_run step env' rest in
      (if keep then v :: out else out, envf)
  end.

(** The update that the predicate of [distinct] makes to its set. *)
Definition distinct_step (by_ : option (value -> value)) (e : value)
    (set : JsSet) : bool * JsSet :=
  let value := match by_ with Some f => f e | None => e end in
  if set_has set value then (false, set) else (true, set_add set value).

(** The key that [distinct] compares. *)
Definition key_of (by_ : option (value -> value)) (e : value) : value :=
  match by_ with Some f => f e | None => e end.

(** [subsequence xs ys]: [xs] is [ys] with some elements left out. *)
Inductive subsequence : list value -> list value -> Prop :=
| subsequence_nil : subsequence [] []
| subsequence_skip : forall x xs ys,
    subsequence xs ys -> subsequence xs (x :: ys)
| subsequence_keep : forall x xs ys,
    subsequence xs ys -> subsequence (x :: xs) (x :: ys).


(** The elements of [vs] paired with their indices from [index] on. *)
Fixpoint indexed (index : Z) (vs : list value) : list (value * Z) :=
  match vs with
  | [] => []
  | v :: rest => (v, index) :: indexed (index + 1)%Z rest
  end.

(** The text [join] writes for an element that is not [null]. *)
Definition item_text (host_toString : value -> string) (item : value)
  : string :=
  match item with
  | VString s => s
  | VUndefined => "undefined"%string
  | _ => host_toString item
  end.

(** The texts [l], each preceded by the separator. *)
Definition separated (sep : string) (l : list string) : string :=
  fold_right (fun t r => (sep ++ t ++ r)%string) ""%string l.

(** * Properties *)

(** ** The monad and the iteration protocol *)

Lemma bind_Ok {H A B} (m : M H A) (k : A -> M H B) h r :
  bind m k h = Ok r <-> exists a h', m h = Ok (a, h') /\ k a h' = Ok r.
Proof.
  unfold bind. split.
  - destruct (m h) as [[a h']| |]; try discriminate. eauto.
  - intros (a & h' & -> & Hk). exact Hk.
Qed.

Lemma bind_step {H A B} (m : M H A) (k : A -> M H B) h a h' :
  m h = Ok (a, h') -> bind m k h = k a h'.
Proof. unfold bind. intros ->. reflexivity. Qed.
Arguments bind_step {H A B} m k {h a h'}.

Lemma on_fst_Ok {H1 H2 A} (m : M H1 A) (h : H1 * H2) a h1 :
  m (fst h) = Ok (a, h1) -> on_fst m h = Ok (a, (h1, snd h)).
Proof. unfold on_fst. intros ->. reflexivity. Qed.

Lemma on_snd_Ok {H1 H2 A} (m : M H2 A) (h : H1 * H2) a h2 :
  m (snd h) = Ok (a, h2) -> on_snd m h = Ok (a, (fst h, h2)).
Proof. unfold on_snd. intros ->. reflexivity. Qed.

(** Splits a hypothesis [bind m k h = Ok r] into its two runs. *)
Ltac bind_inv H :=
  let a := fresh "a" in
  let h := fresh "h" in
  let E := fresh "E" in
  apply bind_Ok in H; destruct H as (a & h & E & H).

Section Protocol.
Variable s : StreamImpl.

Lemma yields_drain it h vs it' h' :
  yields s it h vs it' h' ->
  forall fuel, List.length vs < fuel ->
    drain fuel s it h = Ok ((vs, it'), h').
Proof.
  induction 1 as [it h it' h' E | it h v it1 h1 vs it' h' E _ IH];
    intros [|fuel] Hf; simpl in *; try lia;
    rewrite (bind_step _ _ E); simpl.
  - reflexivity.
  - rewrite (bind_step _ _ (IH fuel ltac:(lia))). reflexivity.
Qed.

Lemma drain_yields fuel : forall it h vs it' h',
  drain fuel s it h = Ok ((vs, it'), h') ->
  yields s it h vs it' h' /\ List.length vs < fuel.
Proof.
  induction fuel as [|fuel IH]; simpl; intros it h vs it' h' H;
    [discriminate|].
  bind_inv H. destruct a as [[v|] it1]; simpl in H.
  - bind_inv H. destruct a as [vs1 it2]. inversion H; subst.
    apply IH in E0 as [Hy Hl]. split; [|simpl; lia].
    eapply yields_more; eassumption.
  - inversion H; subst. split; [|simpl; lia].
    apply yields_done. assumption.
Qed.

Lemma yields_deterministic it h vs it' h' :
  yields s it h vs it' h' ->
  forall ws it'' h'', yields s it h ws it'' h'' ->
    ws = vs /\ it'' = it' /\ h'' = h'.
Proof.
  induction 1 as [it h it' h' E | it h v it1 h1 vs it' h' E _ IH];
    intros ws it'' h'' Hw; inversion Hw; subst;
    match goal with
    | E1 : next s ?i ?x = _, E2 : next s ?i ?x = _ |- _ =>
        rewrite E1 in E2; inversion E2; subst
    end.
  - auto.
  - match goal with Hy : yields s _ _ _ _ _ |- _ =>
      destruct (IH _ _ _ Hy) as (-> & -> & ->) end.
    auto.
Qed.

(** [toArray] keeps what the cursor yields, except the values that
    are [undefined]. *)
Lemma toArray_loop_yields it h vs it' h' :
  yields s it h vs it' h' ->
  forall fuel acc, List.length vs < fuel ->
    toArray_loop fuel s it acc h
    = Ok (acc ++ List.filter defined vs, h').
Proof.
  induction 1 as [it h it' h' E | it h v it1 h1 vs it' h' E _ IH];
    intros [|fuel] acc Hf; simpl in *; try lia;
    rewrite (bind_step _ _ E); simpl.
  - rewrite app_nil_r. reflexivity.
  - rewrite (IH fuel _ ltac:(lia)). unfold defined.
    destruct (is_undefined v); simpl.
    + reflexivity.
    + rewrite <- app_assoc. reflexivity.
Qed.


Lemma toArray_yields h it0 h0 vs it' h' fuel :
  startFn s h = Ok (it0, h0) ->
  yields s it0 h0 vs it' h' ->
  List.length vs < fuel ->
  toArray fuel s h = Ok (List.filter defined vs, h').
Proof.
  intros E Hy Hf. unfold toArray, iterator.
  rewrite (bind_step _ _ E).
  change (List.filter defined vs) with ([] ++ List.filter defined vs).
  eapply toArray_loop_yields; eassumption.
Qed.


Lemma iterate_yields h it0 h0 vs it' h' fuel :
  startFn s h = Ok (it0, h0) ->
  yields s it0 h0 vs it' h' ->
  List.length vs < fuel ->
  iterate fuel s h = Ok (vs, h').
Proof.
  intros E Hy Hf. unfold iterate, iterator.
  rewrite (bind_step _ _ E).
  rewrite (bind_step _ _ (yields_drain Hy Hf)). reflexivity.
Qed.
End Protocol.

(** ** The factory *)

Lemma host_yields (collection : value) (items : list value) :
  yields (iterable_stream collection) items tt items [] tt.
Proof.
  induction items as [|v items IH].
  - apply yields_done. reflexivity.
  - eapply yields_more; [reflexivity | exact IH].
Qed.

Lemma of_array_yields (items : list value) :
  yields (of_array items) items tt items [] tt.
Proof. apply host_yields. Qed.

Lemma iterable_stream_stays_exhausted (collection : value) :
  stays_exhausted (iterable_stream collection) [] tt.
Proof. exists [], tt. reflexivity. Qed.

(** ** [concat] *)

Section Concat.
Variables this other : StreamImpl.
Variable iterator0 : State other.
Variable h_other : Store other.

Let cs := concat_stream this other iterator0 h_other.

Lemma concat_rest_Ok (st : State cs) h1 it2 h2 r it2' h2' :
  next other it2 h2 = Ok ((r, it2'), h2') ->
  concat_rest this other st (h1, (it2, h2))
  = Ok ((r, st), (h1, (it2', h2'))).
Proof.
  intros E. unfold concat_rest, bind, on_snd, captured_next. simpl.
  rewrite E. destruct r; reflexivity.
Qed.




End Concat.



(** ** [map] and [toArray] *)

Lemma map_yields (f : value -> value) (this : StreamImpl) it h vs it' h' :
  yields this it h vs it' h' ->
  yields (map f this) it h (List.map f vs) it' h'.
Proof.
  induction 1 as [it h it' h' E | it h v it1 h1 vs it' h' E _ IH]; simpl.
  - apply yields_done. unfold next in *. simpl.
    rewrite (bind_step _ _ E). reflexivity.
  - eapply yields_more; [|exact IH]. unfold next in *. simpl.
    rewrite (bind_step _ _ E). reflexivity.
Qed.

(** What [toArray] returns on a mapped stream: the images of all the
    elements the source produces, without those that are [undefined]. *)
Lemma map_toArray_defined (f : value -> value) (this : StreamImpl)
    h it0 h0 vs it' h' fuel :
  startFn this h = Ok (it0, h0) ->
  yields this it0 h0 vs it' h' ->
  List.length vs < fuel ->
  toArray fuel (map f this) h
  = Ok (List.filter defined (List.map f vs), h').
Proof.
  intros E Hy Hf.
  apply (@toArray_yields (map f this) h it0 h0 (List.map f vs) it' h' fuel).
  - exact E.
  - apply map_yields. exact Hy.
  - rewrite length_map. exact Hf.
Qed.

(** C6, at [stream([1]).map(_ => undefined)]: the source's array is
    [[1]], so the elementwise image is [[undefined]], but [toArray] on
    the mapped stream returns the empty array. *)
Theorem map_toArray_drops_undefined :
  let f := fun _ : value => VUndefined in
  let S := of_array [VNumber 1] in
  toArray 2 S (captured S) = Ok ([VNumber 1], tt)
  /\ toArray 2 (map f S) (captured (map f S)) = Ok ([], tt)
  /\ List.map f [VNumber 1] = [VUndefined]
  /\ iterate 2 (map f S) (captured (map f S)) = Ok ([VUndefined], tt).
Proof. repeat split. Qed.

(** ** [reduce] *)

Section Reduce.
Variable this : StreamImpl.
Variable callbackfn : value -> value -> value.

Lemma reduce_loop_yields it h vs it' h' :
  yields this it h vs it' h' ->
  forall fuel previousValue, List.length vs < fuel ->
    ('(nxt, it1) <- next this it ;;
     reduce_loop fuel this callbackfn it1 nxt previousValue) h
    = Ok (fold_left (seed_or_combine callbackfn) vs previousValue, h').
Proof.
  induction 1 as [it h it' h' E | it h v it1 h1 vs it' h' E _ IH];
    intros [|fuel] pv Hf; simpl in *; try lia;
    rewrite (bind_step _ _ E); simpl.
  - reflexivity.
  - apply IH. lia.
Qed.

(** [reduce] folds left to right; an accumulator that is [undefined]
    is replaced by the element instead of being combined with it. *)
Lemma reduce_yields h it0 h0 vs it' h' fuel initialValue :
  startFn this h = Ok (it0, h0) ->
  yields this it0 h0 vs it' h' ->
  List.length vs < fuel ->
  reduce fuel callbackfn initialValue this h
  = Ok (fold_left (seed_or_combine callbackfn) vs initialValue, h').
Proof.
  intros E Hy Hf. unfold reduce, iterator.
  rewrite (bind_step _ _ E).
  apply reduce_loop_yields with (it' := it'); assumption.
Qed.

Lemma fold_seed_defined (l : list value) : forall a,
  (forall x y, is_undefined (callbackfn x y) = false) ->
  is_undefined a = false ->
  fold_left (seed_or_combine callbackfn) l a = fold_left callbackfn l a.
Proof.
  induction l as [|x l IH]; intros a Hc Ha; simpl; [reflexivity|].
  unfold seed_or_combine at 2. rewrite Ha. apply IH; [exact Hc | apply Hc].
Qed.
End Reduce.

(** C2, as the code has it.  On an empty sequence [reduce] without an
    initial value returns [undefined], which differs from every value
    but [undefined], and with the initial value 0 it returns 0.  On a
    sequence whose first element is not [undefined], with a callback
    that never returns [undefined], the first element seeds the
    accumulator and the rest is folded left to right. *)
Theorem reduce_seeds_with_first (this : StreamImpl)
    (callbackfn : value -> value -> value)
    (h : Store this) (it0 : State this) (h0 : Store this)
    (vs : list value) (it' : State this) (h' : Store this) (fuel : nat) :
  startFn this h = Ok (it0, h0) ->
  yields this it0 h0 vs it' h' ->
  List.length vs < fuel ->
  (vs = [] ->
     reduce fuel callbackfn VUndefined this h = Ok (VUndefined, h')
     /\ reduce fuel callbackfn (VNumber 0) this h = Ok (VNumber 0, h')
     /\ (forall v, is_undefined v = false ->
           reduce fuel callbackfn VUndefined this h <> Ok (v, h')))
  /\ (forall v rest,
        vs = v :: rest ->
        is_undefined v = false ->
        (forall x y, is_undefined (callbackfn x y) = false) ->
        reduce fuel callbackfn VUndefined this h
        = Ok (fold_left callbackfn rest v, h')).
Proof.
  intros E Hy Hf.
  pose proof (fun iv =>
    @reduce_yields this callbackfn h it0 h0 vs it' h' fuel iv E Hy Hf) as R.
  split.
  - intros ->. rewrite !R. simpl. repeat split.
    intros v Hv Heq. inversion Heq; subst. discriminate.
  - intros v rest -> Hv Hc. rewrite R.
    simpl. unfold seed_or_combine at 2. simpl.
    rewrite fold_seed_defined by assumption. reflexivity.
Qed.

(** C2 at [[1, 2, 3]] with the sum as callback. *)
Lemma reduce_seeds_with_first_witness :
  reduce 4 add VUndefined (of_array [VNumber 1; VNumber 2; VNumber 3]) tt
  = Ok (fold_left add [VNumber 2; VNumber 3] (VNumber 1), tt).
Proof.
  refine (proj2
    (@reduce_seeds_with_first
       (of_array [VNumber 1; VNumber 2; VNumber 3]) add
       tt [VNumber 1; VNumber 2; VNumber 3] tt
       [VNumber 1; VNumber 2; VNumber 3] [] tt 4
       eq_refl (of_array_yields _) _)
    (VNumber 1) [VNumber 2; VNumber 3] eq_refl eq_refl _).
  - simpl. lia.
  - intros [] []; reflexivity.
Defined.

(** C2 fails as stated.  The sequence [[undefined]] is not empty, yet
    [reduce] without an initial value returns on it what it returns on
    the empty sequence; and on [[undefined, 5]] the first visited
    element does not seed the fold: the result is 5, not the
    combination of [undefined] with 5. *)
Lemma reduce_conflates_undefined :
  reduce 3 add VUndefined (of_array [VUndefined]) tt
  = reduce 3 add VUndefined (of_array []) tt
  /\ reduce 3 add VUndefined (of_array [VUndefined; VNumber 5]) tt
     = Ok (VNumber 5, tt)
  /\ reduce 3 add VUndefined (of_array [VUndefined; VNumber 5]) tt
     <> Ok (fold_left add [VNumber 5] VUndefined, tt).
Proof. repeat split. discriminate. Qed.

(** ** [reduceRight] *)

Section ReduceRight.
Variable this : StreamImpl.
Variable callbackfn : value -> value -> value.

Lemma recursiveReduce_yields it h vs it' h' initialValue :
  yields this it h vs it' h' ->
  forall fuel, List.length vs < fuel ->
    recursiveReduce fuel this it callbackfn initialValue h
    = Ok (fold_right (fun x acc => seed_or_combine callbackfn acc x)
            initialValue vs, h').
Proof.
  induction 1 as [it h it' h' E | it h v it1 h1 vs it' h' E _ IH];
    intros [|fuel] Hf; simpl in *; try lia;
    rewrite (bind_step _ _ E); simpl.
  - reflexivity.
  - rewrite (bind_step _ _ (IH fuel ltac:(lia))).
    set (acc := fold_right _ initialValue vs).
    unfold seed_or_combine. destruct (is_undefined acc); reflexivity.
Qed.

(** The recursion computes the iterative fold of the reversed buffer
    with the loop body of [reduce]. *)
Lemma reduceRight_yields h it0 h0 vs it' h' fuel initialValue :
  startFn this h = Ok (it0, h0) ->
  yields this it0 h0 vs it' h' ->
  List.length vs < fuel ->
  reduceRight fuel callbackfn initialValue this h
  = Ok (fold_left (seed_or_combine callbackfn) (rev vs) initialValue, h').
Proof.
  intros E Hy Hf. unfold reduceRight, iterator.
  rewrite (bind_step _ _ E).
  rewrite (recursiveReduce_yields initialValue Hy Hf).
  rewrite <- fold_left_rev_right, rev_involutive. reflexivity.
Qed.

(** When [undefined] never shows up as an accumulator, the loop body
    of [reduce] implements the reduce contract. *)
Lemma seed_or_combine_contract (initial : option value) (l : list value) :
  (forall x y, is_undefined (callbackfn x y) = false) ->
  (forall i, initial = Some i -> is_undefined i = false) ->
  (initial = None -> is_undefined (hd VNull l) = false) ->
  fold_left (seed_or_combine callbackfn) l (optional initial)
  = optional (reduce_contract callbackfn initial l).
Proof.
  intros Hc Hi Hl. destruct initial as [i|]; simpl.
  - apply fold_seed_defined; [exact Hc | apply Hi; reflexivity].
  - destruct l as [|x l]; simpl; [reflexivity|].
    unfold seed_or_combine at 2. simpl.
    apply fold_seed_defined; [exact Hc | apply Hl; reflexivity].
Qed.
End ReduceRight.

Lemma hd_rev (d : value) (l : list value) : hd d (rev l) = last l d.
Proof.
  destruct (rev l) as [|x r] eqn:E.
  - apply (f_equal (@rev value)) in E. rewrite rev_involutive in E.
    subst l. reflexivity.
  - apply (f_equal (@rev value)) in E. rewrite rev_involutive in E.
    subst l. simpl. rewrite last_last. reflexivity.
Qed.

(** C7, as the code has it.  For every finite stream and callback,
    [reduceRight] returns what the loop of [reduce] returns on the
    reversed buffer of the elements.  It returns what the buffered
    reference strategy returns under the reduce contract whenever the
    callback never returns [undefined], a supplied initial value is not
    [undefined], and, without an initial value, the last element is not
    [undefined]. *)
Theorem reduceRight_buffered_agree (this : StreamImpl)
    (callbackfn : value -> value -> value)
    (h : Store this) (it0 : State this) (h0 : Store this)
    (vs : list value) (it' : State this) (h' : Store this) (fuel : nat) :
  startFn this h = Ok (it0, h0) ->
  yields this it0 h0 vs it' h' ->
  List.length vs < fuel ->
  (forall initialValue r,
      reduce fuel callbackfn initialValue (of_array (rev vs)) tt
      = Ok (r, tt) ->
      reduceRight fuel callbackfn initialValue this h = Ok (r, h'))
  /\ (forall initial : option value,
        (forall x y, is_undefined (callbackfn x y) = false) ->
        (forall i, initial = Some i -> is_undefined i = false) ->
        (initial = None -> is_undefined (last vs VNull) = false) ->
        reduceRight fuel callbackfn (optional initial) this h
        = Ok (optional (reduceRight_buffered callbackfn initial vs), h')).
Proof.
  intros E Hy Hf. split.
  - intros iv r Hr.
    rewrite (@reduce_yields (of_array (rev vs)) callbackfn tt
               (rev vs) tt (rev vs) [] tt fuel iv eq_refl
               (of_array_yields _)) in Hr
      by (rewrite length_rev; exact Hf).
    inversion Hr; subst.
    apply reduceRight_yields with (it0 := it0) (h0 := h0) (it' := it');
      assumption.
  - intros initial Hc Hi Hl.
    rewrite (@reduceRight_yields this callbackfn h it0 h0 vs it' h' fuel
               (optional initial) E Hy Hf).
    unfold reduceRight_buffered.
    rewrite seed_or_combine_contract; try assumption; [reflexivity|].
    intros Hn. rewrite hd_rev. apply Hl. exact Hn.
Qed.

(** C7 at [[1, 2, 3]] with the sum as callback and no initial value. *)
Lemma reduceRight_buffered_agree_witness :
  reduceRight 4 add (optional None)
    (of_array [VNumber 1; VNumber 2; VNumber 3]) tt
  = Ok (optional
          (reduceRight_buffered add None [VNumber 1; VNumber 2; VNumber 3]),
        tt).
Proof.
  refine (proj2
    (@reduceRight_buffered_agree
       (of_array [VNumber 1; VNumber 2; VNumber 3]) add
       tt [VNumber 1; VNumber 2; VNumber 3] tt
       [VNumber 1; VNumber 2; VNumber 3] [] tt 4
       eq_refl (of_array_yields _) _)
    None _ _ _).
  - simpl. lia.
  - intros [] []; reflexivity.
  - discriminate.
  - reflexivity.
Defined.

(** C7 fails as stated.  On [[5, undefined]] without an initial value
    the reference strategy seeds with the last element [undefined] and
    combines it with 5, which gives 0 for the sum callback; the
    recursion returns 5.  With [undefined] supplied as initial value on
    [[5]] the reference combines [undefined] with 5; the recursion
    returns 5 again. *)
Lemma reduceRight_differs_on_undefined :
  reduceRight 3 add (optional None) (of_array [VNumber 5; VUndefined]) tt
  = Ok (VNumber 5, tt)
  /\ reduceRight 3 add (optional None) (of_array [VNumber 5; VUndefined]) tt
     <> Ok (optional (reduceRight_buffered add None [VNumber 5; VUndefined]),
            tt)
  /\ reduceRight 3 add (optional (Some VUndefined)) (of_array [VNumber 5]) tt
     = Ok (VNumber 5, tt)
  /\ reduceRight 3 add (optional (Some VUndefined)) (of_array [VNumber 5]) tt
     <> Ok (optional (reduceRight_buffered add (Some VUndefined) [VNumber 5]),
            tt).
Proof. repeat split; discriminate. Qed.

(** ** [tail] *)

Section Tail.
Variable this : StreamImpl.

Lemma tail_yields skipCount it h vs it' h' :
  yields this it h vs it' h' ->
  yields (tail skipCount this) it h vs it' h'.
Proof.
  induction 1 as [it h it' h' E | it h v it1 h1 vs it' h' E _ IH].
  - apply yields_done. exact E.
  - eapply yields_more; [exact E | exact IH].
Qed.

(** The loop of the start function drops [n] elements, or all of
    them when there are fewer. *)
Lemma tail_skip_yields it h vs it' h' :
  yields this it h vs it' h' ->
  stays_exhausted this it' h' ->
  forall n, exists it1 h1 itf hf,
    tail_skip n this it h = Ok (it1, h1)
    /\ yields this it1 h1 (skipn n vs) itf hf.
Proof.
  induction 1 as [it h it' h' E | it h v it1 h1 vs it' h' E Hy IH];
    intros Hs [|n]; simpl.
  - exists it, h, it', h'. split; [reflexivity|].
    apply yields_done. exact E.
  - destruct Hs as (it'' & h'' & Es).
    exists it', h', it'', h''. split.
    + unfold next in E. rewrite (bind_step _ _ E). reflexivity.
    + apply yields_done. exact Es.
  - exists it, h, it', h'. split; [reflexivity|].
    eapply yields_more; eassumption.
  - destruct (IH Hs n) as (i1 & g1 & itf & hf & Et & Hr).
    exists i1, g1, itf, hf. split; [|exact Hr].
    unfold next in E. rewrite (bind_step _ _ E). exact Et.
Qed.
End Tail.

(** C9. On a finite stream that stays exhausted once exhausted,
    [tail(skipCount)] yields the elements after the first [skipCount]
    ones, in order; when the stream has fewer than [skipCount]
    elements it yields nothing, and nothing is thrown. *)
Theorem tail_skips_or_empties (this : StreamImpl) (skipCount : Z)
    (h : Store this) (it0 : State this) (h0 : Store this)
    (vs : list value) (it' : State this) (h' : Store this) (fuel : nat) :
  startFn this h = Ok (it0, h0) ->
  yields this it0 h0 vs it' h' ->
  stays_exhausted this it' h' ->
  List.length vs < fuel ->
  exists hf,
    iterate fuel (tail skipCount this) h
    = Ok (skipn (Z.to_nat skipCount) vs, hf)
    /\ toArray fuel (tail skipCount this) h
       = Ok (List.filter defined (skipn (Z.to_nat skipCount) vs), hf)
    /\ ((Z.of_nat (List.length vs) < skipCount)%Z ->
        iterate fuel (tail skipCount this) h = Ok ([], hf)
        /\ isEmpty (tail skipCount this) h = Ok (true, hf)).
Proof.
  intros E Hy Hs Hf.
  destruct (@tail_skip_yields this it0 h0 vs it' h' Hy Hs
              (Z.to_nat skipCount)) as (i1 & g1 & itf & hf & Et & Hr).
  apply (tail_yields skipCount) in Hr.
  assert (Est : startFn (tail skipCount this) h = Ok (i1, g1)).
  { simpl. rewrite (bind_step _ _ E). exact Et. }
  assert (Hlen : List.length (skipn (Z.to_nat skipCount) vs) < fuel).
  { rewrite length_skipn. lia. }
  exists hf. split; [|split].
  - eapply iterate_yields; eassumption.
  - eapply toArray_yields; eassumption.
  - intros Hk.
    assert (Hnil : skipn (Z.to_nat skipCount) vs = []).
    { apply skipn_all2. lia. }
    rewrite Hnil in *. split.
    + eapply iterate_yields; eassumption.
    + inversion Hr; subst. unfold isEmpty, iterator.
      rewrite (bind_step _ _ Est).
      match goal with En : next _ _ _ = Ok _ |- _ =>
        rewrite (bind_step _ _ En) end.
      reflexivity.
Qed.

(** C9 at [tail(5)] on a stream of three elements. *)
Lemma tail_skips_or_empties_witness :
  exists hf,
    iterate 4 (tail 5 (of_array [VNumber 1; VNumber 2; VNumber 3])) tt
    = Ok ([], hf)
    /\ toArray 4 (tail 5 (of_array [VNumber 1; VNumber 2; VNumber 3])) tt
       = Ok ([], hf).
Proof.
  destruct (@tail_skips_or_empties
              (of_array [VNumber 1; VNumber 2; VNumber 3]) 5%Z
              tt [VNumber 1; VNumber 2; VNumber 3] tt
              [VNumber 1; VNumber 2; VNumber 3] [] tt 4
              eq_refl (of_array_yields _)
              (iterable_stream_stays_exhausted _)
              ltac:(simpl; lia)) as (hf & Hi & Ht & _).
  exists hf. split; assumption.
Defined.

(** ** [flatMap] and [flat] *)

Section FlatMap.
Variable this : StreamImpl.
Variable callbackfn : value -> value.
Variable it' : State this.
Variable h' : Store this.




End FlatMap.



Lemma flat_recursion (fuel : nat) (depth : Z) (this : StreamImpl) :
  flat fuel depth this
  = if (depth <=? 0)%Z then this
    else flat_once fuel
           (if (1 <? depth)%Z then flat fuel (depth - 1) this else this).
Proof.
  rewrite (flat_equation_1 fuel depth this).
  destruct (Z_le_gt_dec depth 0); simpl;
    destruct (Z.leb_spec depth 0); try lia; reflexivity.
Qed.

(** C8. [flat(depth)] with [depth <= 0] is the stream itself; with
    [depth > 1] it is [flat(1)] of [flat(depth - 1)]; on
    [[[1, [2, 3]], [4]]], [flat(2)] yields [[1, 2, 3, 4]] and [flat(1)]
    yields [[1, [2, 3], 4]]. *)
Theorem flat_depth (fuel : nat) (depth : Z) (this : StreamImpl) :
  ((depth <= 0)%Z -> flat fuel depth this = this)
  /\ ((depth > 1)%Z ->
      flat fuel depth this = flat fuel 1 (flat fuel (depth - 1) this))
  /\ (let nested :=
        [VArray 1 [VNumber 1; VArray 2 [VNumber 2; VNumber 3]];
         VArray 3 [VNumber 4]] in
      toArray 5 (flat 2 2 (of_array nested)) tt
      = Ok ([VNumber 1; VNumber 2; VNumber 3; VNumber 4], tt)
      /\ toArray 4 (flat 2 1 (of_array nested)) tt
         = Ok ([VNumber 1; VArray 2 [VNumber 2; VNumber 3]; VNumber 4], tt)).
Proof.
  split; [|split].
  - intros Hd. rewrite flat_recursion.
    destruct (Z.leb_spec depth 0); [reflexivity | lia].
  - intros Hd. rewrite (flat_recursion fuel depth).
    rewrite (flat_recursion fuel 1). simpl.
    destruct (Z.leb_spec depth 0); [lia|].
    destruct (Z.ltb_spec 1 depth); [reflexivity | lia].
  - split; reflexivity.
Qed.

(** C8 at depths 0 and 2. *)
Lemma flat_depth_witness :
  flat 2 0 (of_array [VNumber 1]) = of_array [VNumber 1]
  /\ flat 2 2 (of_array [VNumber 1])
     = flat 2 1 (flat 2 (2 - 1) (of_array [VNumber 1])).
Proof.
  split.
  - apply (proj1 (flat_depth 2 0 (of_array [VNumber 1]))). lia.
  - apply (proj1 (proj2 (flat_depth 2 2 (of_array [VNumber 1])))). lia.
Defined.



(** The iterability test throws on [undefined], and the exception
    reaches the call that drives the flattened stream. *)
Example flat_throws_on_undefined :
  toArray 3 (flat_once 2 (of_array [VNumber 1; VUndefined])) tt
  = Throw TypeError.
Proof. reflexivity. Qed.

(** ** [TreeStreamImpl] *)

Lemma yields_same_next (s : StreamImpl) (st1 st2 : State s) h vs it' h' :
  next s st1 h = next s st2 h ->
  yields s st2 h vs it' h' ->
  yields s st1 h vs it' h'.
Proof.
  intros En Hy. inversion Hy; subst.
  - apply yields_done. rewrite En. assumption.
  - eapply yields_more; [rewrite En|]; eassumption.
Qed.

Lemma produces_app_inv (s : StreamImpl) (vs ws : list value) :
  forall it h it' h',
    produces s it h (vs ++ ws) it' h' ->
    exists it1 h1, produces s it h vs it1 h1 /\ produces s it1 h1 ws it' h'.
Proof.
  induction vs as [|v vs IH]; simpl; intros it h it' h' Hp.
  - exists it, h. split; [constructor | exact Hp].
  - inversion Hp; subst.
    match goal with Hr : produces s _ _ (vs ++ ws) _ _ |- _ =>
      apply IH in Hr as (it2 & h2 & Hp1 & Hp2) end.
    exists it2, h2. split; [|exact Hp2].
    eapply produces_cons; eassumption.
Qed.

Lemma subtree_trans (a b c : tree) :
  subtree a b -> subtree b c -> subtree a c.
Proof.
  intros Hab Hbc. induction Hbc as [k t Hk | s k t Hk _ IH].
  - eapply subtree_below; eassumption.
  - eapply subtree_below; [exact Hk | apply IH; exact Hab].
Qed.

Section Tree.
Variable root : value.
Variable children : value -> list value.

Let ts := TreeStreamImpl root children.

(** A step from an empty sibling iterator is the step from the stack
    below it. *)
Lemma tree_next_pop fs :
  next ts (unpruned ([] :: fs)) tt = next ts (unpruned fs) tt.
Proof. reflexivity. Qed.

(** A step after [prune()] is the step from the stack without its
    top iterator. *)
Lemma tree_next_pruned f fs :
  next ts (prune (unpruned (f :: fs))) tt = next ts (unpruned fs) tt.
Proof. reflexivity. Qed.

Lemma tree_next_node v ks f fs :
  children v = List.map label ks ->
  next ts (unpruned ((Node v ks :: f) :: fs)) tt
  = Ok ((IteratorYieldResult v, unpruned (ks :: f :: fs)), tt).
Proof.
  intros Hc. unfold next, unpruned, labels. simpl. rewrite Hc.
  reflexivity.
Qed.

Lemma remaining_node v ks f fs :
  remaining ((Node v ks :: f) :: fs) = v :: remaining (ks :: f :: fs).
Proof.
  unfold remaining. simpl. rewrite <- !app_assoc. reflexivity.
Qed.

Lemma stack_weight_node v ks f fs :
  stack_weight (ks :: f :: fs) < stack_weight ((Node v ks :: f) :: fs).
Proof. unfold stack_weight, forest_size. simpl. lia. Qed.

(** Draining a cursor whose stack holds the forests [fs] yields their
    nodes in pre-order, forest by forest from the top of the stack. *)
Lemma tree_yields (n : nat) : forall fs,
  stack_weight fs <= n ->
  Forall (Forall (unfolds children)) fs ->
  yields ts (unpruned fs) tt (remaining fs) (unpruned []) tt.
Proof.
  induction n as [|n IH]; intros [|[|[v ks] f] fs] Hw Hu;
    try (apply yields_done; reflexivity);
    try (unfold stack_weight in Hw; simpl in Hw; lia).
  - apply yields_same_next with (st2 := unpruned fs);
      [apply tree_next_pop|].
    change (remaining ([] :: fs)) with (remaining fs).
    apply IH; [|inversion Hu; subst; assumption].
    unfold stack_weight in *. simpl in *. lia.
  - inversion Hu as [|? ? Hf Hfs]; subst.
    inversion Hf as [|? ? Hv Hf']; subst.
    inversion Hv as [? ? Hc Hks]; subst.
    rewrite remaining_node.
    eapply yields_more; [apply tree_next_node; exact Hc|].
    apply IH.
    + pose proof (stack_weight_node v ks f fs). lia.
    + repeat constructor; assumption.
Qed.

(** A step that produces [N] descends into a tree [sub] labelled [N]
    taken from the stack: it pushes the iterator over the children of
    [sub] and removes [sub] from what is left. *)
Lemma tree_step : forall fs,
  Forall (Forall (unfolds children)) fs ->
  forall N st,
    next ts (unpruned fs) tt = Ok ((IteratorYieldResult N, st), tt) ->
    exists sub f fs2,
      st = unpruned (kids sub :: f :: fs2)
      /\ label sub = N
      /\ In sub (List.concat fs)
      /\ (forall x, In x (List.concat (f :: fs2)) -> In x (List.concat fs))
      /\ Forall (Forall (unfolds children)) (kids sub :: f :: fs2)
      /\ remaining fs = N :: remaining (kids sub :: f :: fs2).
Proof.
  induction fs as [|[|[v ks] f] fs IH]; intros Hu N st En.
  - discriminate.
  - rewrite tree_next_pop in En.
    inversion Hu; subst.
    destruct (IH ltac:(assumption) N st En)
      as (sub & f & fs2 & -> & Hl & Hin & Hsub & Hu2 & Hr).
    exists sub, f, fs2. repeat split; assumption.
  - inversion Hu as [|? ? Hf Hfs]; subst.
    inversion Hf as [|? ? Hv Hf']; subst.
    inversion Hv as [? ? Hc Hks]; subst.
    rewrite (@tree_next_node v ks f fs Hc) in En. inversion En; subst.
    exists (Node N ks), f, fs. repeat split.
    + simpl. left. reflexivity.
    + intros x Hx. simpl in *. right. exact Hx.
    + repeat constructor; assumption.
    + apply remaining_node.
Qed.

(** The states a cursor reaches without pruning hold forests of
    subtrees of [t]; what was produced and what is left make up the
    traversal. *)
Lemma tree_produces (t : tree) (vs : list value) : forall fs st,
  Forall (Forall (unfolds children)) fs ->
  (forall x, In x (List.concat fs) -> subtree x t) ->
  produces ts (unpruned fs) tt vs st tt ->
  exists fs',
    st = unpruned fs'
    /\ Forall (Forall (unfolds children)) fs'
    /\ (forall x, In x (List.concat fs') -> subtree x t)
    /\ remaining fs = vs ++ remaining fs'.
Proof.
  induction vs as [|v vs IH]; intros fs st Hu Hin Hp;
    inversion Hp; subst.
  - exists fs. auto.
  - match goal with g : Store ts |- _ => destruct g end.
    match goal with En : next ts _ _ = Ok _ |- _ =>
      destruct (tree_step Hu En)
        as (sub & f & fs2 & -> & Hl & Hs & Hsub & Hu2 & Hr) end.
    assert (Hin2 : forall x,
               In x (List.concat (kids sub :: f :: fs2)) -> subtree x t).
    { intros x Hx. simpl in Hx. apply in_app_or in Hx as [Hx|Hx].
      - apply subtree_trans with (b := sub);
          [apply subtree_kid; exact Hx | apply Hin; exact Hs].
      - apply Hin. apply Hsub. exact Hx. }
    match goal with Hq : produces ts _ _ vs _ _ |- _ =>
      destruct (IH _ _ Hu2 Hin2 Hq) as (fs' & -> & Hu' & Hin' & Hr')
    end.
    exists fs'. repeat split; try assumption.
    rewrite Hr, Hr'. reflexivity.
Qed.
End Tree.

Lemma preorder_length : forall t, List.length (preorder t) = size t.
Proof.
  fix IH 1. intros [v ks]. simpl. f_equal.
  induction ks as [|k ks IHks]; simpl; [reflexivity|].
  rewrite length_app, IH, IHks. reflexivity.
Qed.

Lemma descendants_length (t : tree) :
  S (List.length (descendants t)) = size t.
Proof. destruct t as [v ks]. apply (preorder_length (Node v ks)). Qed.

Lemma descendants_remaining (t : tree) :
  descendants t = remaining [kids t].
Proof. unfold remaining. simpl. rewrite app_nil_r. reflexivity. Qed.

Lemma tree_start (root : value) (children : value -> list value) (t : tree) :
  unfolds children t ->
  label t = root ->
  startFn (TreeStreamImpl root children) tt = Ok (unpruned [kids t], tt)
  /\ Forall (Forall (unfolds children)) [kids t].
Proof.
  intros Hu <-. destruct Hu as [v ks Hc Hks]. simpl. split.
  - unfold ret, unpruned, labels. simpl. rewrite Hc. reflexivity.
  - repeat constructor. exact Hks.
Qed.

(** C3. When [t] is the finite tree that [children] unfolds from
    [root], the tree stream yields the proper descendants of the root
    in pre-order, one element for each node of [t] below the root.
    For A -> [B, C], B -> [D] that is [[B, D, C]], and after [prune()]
    right after B the rest of the iteration is [[C]]. *)
Theorem tree_stream_preorder (root : value) (children : value -> list value)
    (t : tree) (fuel : nat) :
  unfolds children t ->
  label t = root ->
  List.length (descendants t) < fuel ->
  iterate fuel (TreeStreamImpl root children) tt = Ok (descendants t, tt)
  /\ S (List.length (descendants t)) = size t
  /\ (let ts := TreeStreamImpl (VString "A") example_children in
      iterate 4 ts tt
      = Ok ([VString "B"; VString "D"; VString "C"], tt)
      /\ exists st0 st1,
           iterator ts tt = Ok (st0, tt)
           /\ next ts st0 tt = Ok ((IteratorYieldResult (VString "B"), st1), tt)
           /\ drain 2 ts (prune st1) tt
              = Ok (([VString "C"], unpruned []), tt)).
Proof.
  intros Hu Hl Hf. split; [|split].
  - destruct (tree_start Hu Hl) as [Es Hfs].
    eapply iterate_yields; [exact Es | | exact Hf].
    rewrite descendants_remaining.
    apply (@tree_yields root children (stack_weight [kids t]));
      [apply le_n | exact Hfs].
  - apply descendants_length.
  - split; [reflexivity|].
    exists (unpruned [kids example_tree]),
      (unpruned [[Node (VString "D") []]; [Node (VString "C") []]]).
    split; [|split]; reflexivity.
Qed.

Lemma example_tree_unfolds : unfolds example_children example_tree.
Proof. repeat constructor. Qed.

(** C3 at the tree A -> [B, C], B -> [D]. *)
Lemma tree_stream_preorder_witness :
  iterate 4 (TreeStreamImpl (VString "A") example_children) tt
  = Ok (descendants example_tree, tt).
Proof.
  apply (@tree_stream_preorder (VString "A") example_children
           example_tree 4 example_tree_unfolds eq_refl).
  simpl. lia.
Defined.

(** C4. Let a fresh cursor over the tree [t] produce, without pruning,
    the values [emitted] and then [N].  Then [N] labels a subtree [sub]
    of [t], the unpruned traversal is [emitted], [N], the descendants
    of [sub], and a remainder [rest]; from that cursor the iteration
    goes on with the descendants of [sub] followed by [rest], and after
    [prune()] it goes on with [rest] alone. *)
Theorem prune_removes_subtree (root : value)
    (children : value -> list value) (t : tree)
    (st0 : TreeState) (emitted : list value) (N : value) (st : TreeState) :
  unfolds children t ->
  label t = root ->
  iterator (TreeStreamImpl root children) tt = Ok (st0, tt) ->
  produces (TreeStreamImpl root children) st0 tt (emitted ++ [N]) st tt ->
  exists sub rest,
    subtree sub t
    /\ label sub = N
    /\ descendants t = emitted ++ N :: descendants sub ++ rest
    /\ forall fuel, List.length (descendants sub ++ rest) < fuel ->
         drain fuel (TreeStreamImpl root children) st tt
         = Ok ((descendants sub ++ rest, unpruned []), tt)
         /\ drain fuel (TreeStreamImpl root children) (prune st) tt
            = Ok ((rest, unpruned []), tt).
Proof.
  intros Hu Hl Es Hp.
  destruct (tree_start Hu Hl) as [Es' Hfs].
  unfold iterator in Es. rewrite Es' in Es. inversion Es; subst st0.
  apply produces_app_inv in Hp as (mid & g & Hp1 & Hp2).
  destruct g.
  assert (Hin : forall x, In x (List.concat [kids t]) -> subtree x t).
  { intros x Hx. simpl in Hx. rewrite app_nil_r in Hx.
    apply subtree_kid. exact Hx. }
  destruct (tree_produces Hfs Hin Hp1) as (fs & -> & Hfs1 & Hin1 & Hr1).
  inversion Hp2 as [|? ? ? it1 h1 ? ? ? En Hnil]; subst.
  inversion Hnil; subst.
  destruct (tree_step Hfs1 En)
    as (sub & f & fs2 & -> & Hls & Hs & Hsub & Hfs2 & Hr2).
  exists sub, (remaining (f :: fs2)).
  assert (Hrem : remaining (kids sub :: f :: fs2)
                 = descendants sub ++ remaining (f :: fs2))
    by reflexivity.
  split; [apply Hin1; exact Hs|].
  split; [exact Hls|].
  split.
  - rewrite descendants_remaining, Hr1, Hr2, Hrem. reflexivity.
  - intros fuel Hf. split.
    + apply yields_drain; [|exact Hf]. rewrite <- Hrem.
      apply (@tree_yields _ children
               (stack_weight (kids sub :: f :: fs2)));
        [apply le_n | exact Hfs2].
    + apply yields_drain; [|rewrite length_app in Hf; lia].
      apply yields_same_next with (st2 := unpruned (f :: fs2));
        [apply tree_next_pruned|].
      apply (@tree_yields _ children (stack_weight (f :: fs2)));
        [apply le_n | inversion Hfs2; assumption].
Qed.

(** C4 at the tree A -> [B, C], B -> [D], pruning right after B. *)
Lemma prune_removes_subtree_witness :
  exists sub rest,
    subtree sub example_tree
    /\ label sub = VString "B"
    /\ descendants example_tree = [] ++ VString "B" :: descendants sub ++ rest
    /\ forall fuel, List.length (descendants sub ++ rest) < fuel ->
         drain fuel (TreeStreamImpl (VString "A") example_children)
           (unpruned [[Node (VString "D") []]; [Node (VString "C") []]]) tt
         = Ok ((descendants sub ++ rest, unpruned []), tt)
         /\ drain fuel (TreeStreamImpl (VString "A") example_children)
              (prune
                 (unpruned
                    [[Node (VString "D") []]; [Node (VString "C") []]])) tt
            = Ok ((rest, unpruned []), tt).
Proof.
  apply (@prune_removes_subtree (VString "A") example_children example_tree
           (unpruned [kids example_tree]) [] (VString "B")
           (unpruned [[Node (VString "D") []]; [Node (VString "C") []]])
           example_tree_unfolds eq_refl eq_refl).
  apply produces_cons
    with (it1 := unpruned [[Node (VString "D") []]; [Node (VString "C") []]])
         (h1 := tt);
    [reflexivity | apply produces_nil].
Defined.

(** ** Re-iteration *)

(** C1, at [stream([1, 2]).concat([3])] and at
    [stream([3, 1, 2, 3]).distinct()]: the second cursor over the same
    stream value does not yield what the first one did.  The iterator
    of [concat] and the set of [distinct] are created when the stream
    is built, not by the start function, so the first cursor uses them
    up.  A flat-mapped stream, which keeps its nested iterator in the
    cursor state, yields the same elements twice. *)
Theorem second_cursor_differs :
  (exists s,
      concat (of_array [VNumber 1; VNumber 2]) (of_array [VNumber 3]) = Ok s
      /\ iterate_twice 4 s
         = Ok ([VNumber 1; VNumber 2; VNumber 3], [VNumber 1; VNumber 2]))
  /\ iterate_twice 5
       (distinct 5 None (of_array [VNumber 3; VNumber 1; VNumber 2; VNumber 3]))
     = Ok ([VNumber 3; VNumber 1; VNumber 2], [])
  /\ iterate_twice 5
       (flatMap 2 (fun v => v)
          (of_array [VArray 1 [VNumber 1; VNumber 2]; VNumber 3]))
     = Ok ([VNumber 1; VNumber 2; VNumber 3],
           [VNumber 1; VNumber 2; VNumber 3]).
Proof.
  split; [|split; reflexivity].
  exists (concat_stream (of_array [VNumber 1; VNumber 2])
            (of_array [VNumber 3]) [VNumber 3] tt).
  split; reflexivity.
Qed.


(** * Further properties of the stream engine *)

Unset Implicit Arguments.

(** ** Scanning consumers *)

Lemma yields_split (s : StreamImpl) (pre : list value) :
  forall it h v post it' h',
    yields s it h (pre ++ v :: post) it' h' ->
    exists it1 h1 it2 h2,
      produces s it h pre it1 h1
      /\ next s it1 h1 = Ok ((IteratorYieldResult v, it2), h2)
      /\ yields s it2 h2 post it' h'.
Proof.
  induction pre as [|x pre IH]; simpl; intros it h v post it' h' Hy;
    inversion Hy; subst.
  - exists it, h. do 2 eexists. split; [constructor|]. split; eassumption.
  - match goal with Hr : yields s _ _ (pre ++ _) _ _ |- _ =>
      apply IH in Hr as (i1 & g1 & i2 & g2 & Hp & En & Hr) end.
    exists i1, g1, i2, g2. split; [|split; assumption].
    eapply produces_cons; eassumption.
Qed.

Lemma first_match_None_app (test : Z -> value -> bool) (pre l : list value) :
  forall i,
    first_match test i pre = None ->
    first_match test i (pre ++ l)
    = first_match test (i + Z.of_nat (List.length pre))%Z l.
Proof.
  induction pre as [|x pre IH]; intros i Hn; simpl in *.
  - rewrite Z.add_0_r. reflexivity.
  - destruct (test i x); [discriminate|].
    rewrite (IH _ Hn). f_equal. lia.
Qed.

Lemma first_match_Some_split (test : Z -> value -> bool) (vs : list value) :
  forall i j v,
    first_match test i vs = Some (j, v) ->
    exists pre post,
      vs = pre ++ v :: post
      /\ j = (i + Z.of_nat (List.length pre))%Z
      /\ test j v = true
      /\ first_match test i pre = None.
Proof.
  induction vs as [|x vs IH]; intros i j v Hs; simpl in Hs;
    [discriminate|].
  destruct (test i x) eqn:Ht.
  - inversion Hs; subst. exists [], vs. simpl.
    rewrite Z.add_0_r. auto.
  - apply IH in Hs as (pre & post & -> & -> & Hv & Hn).
    exists (x :: pre), post. simpl. rewrite Ht.
    replace (i + Z.pos (Pos.of_succ_nat (List.length pre)))%Z
      with (i + 1 + Z.of_nat (List.length pre))%Z by lia.
    auto.
Qed.

Lemma first_match_None_all (test : Z -> value -> bool) (vs : list value) :
  forall i,
    first_match test i vs = None ->
    forall k, k < List.length vs ->
      test (i + Z.of_nat k)%Z (nth k vs VUndefined) = false.
Proof.
  induction vs as [|x vs IH]; intros i Hn k Hk; simpl in *; [lia|].
  destruct (test i x) eqn:Ht; [discriminate|].
  destruct k as [|k].
  - rewrite Z.add_0_r. exact Ht.
  - replace (i + Z.of_nat (S k))%Z with (i + 1 + Z.of_nat k)%Z by lia.
    apply IH; [exact Hn | lia].
Qed.

Section Scan.
Variable s : StreamImpl.
Variable test : Z -> value -> bool.

Lemma scan_exhausts : forall it h vs it' h',
  yields s it h vs it' h' ->
  forall fuel i,
    first_match test i vs = None ->
    List.length vs < fuel ->
    ('(nxt, it1) <- next s it ;; scan_loop fuel s test it1 nxt i) h
    = Ok (None, h').
Proof.
  induction 1 as [it h it' h' E | it h v it1 h1 vs it' h' E _ IH];
    intros [|fuel] i Hn Hf; simpl in *; try lia;
    rewrite (bind_step _ _ E); simpl.
  - reflexivity.
  - destruct (test i v); [discriminate|].
    apply IH; [exact Hn | lia].
Qed.

Lemma scan_finds : forall it h pre it1 h1,
  produces s it h pre it1 h1 ->
  forall fuel i v it2 h2,
    next s it1 h1 = Ok ((IteratorYieldResult v, it2), h2) ->
    first_match test i pre = None ->
    test (i + Z.of_nat (List.length pre))%Z v = true ->
    List.length pre < fuel ->
    ('(nxt, it3) <- next s it ;; scan_loop fuel s test it3 nxt i) h
    = Ok (Some ((i + Z.of_nat (List.length pre))%Z, v), h2).
Proof.
  induction 1 as [it h | it h x it1 h1 pre it' h' E _ IH];
    intros [|fuel] i v it2 h2 En Hn Ht Hf; simpl in *; try lia.
  - rewrite (bind_step _ _ En). simpl.
    rewrite Z.add_0_r in *. rewrite Ht. reflexivity.
  - rewrite (bind_step _ _ E). simpl.
    destruct (test i x); [discriminate|].
    replace (i + Z.pos (Pos.of_succ_nat (List.length pre)))%Z
      with (i + 1 + Z.of_nat (List.length pre))%Z in * by lia.
    apply IH with (it2 := it2); try assumption. lia.
Qed.

Lemma scan_first_match : forall it h vs it' h' fuel i,
  yields s it h vs it' h' ->
  List.length vs < fuel ->
  exists g,
    ('(nxt, it1) <- next s it ;; scan_loop fuel s test it1 nxt i) h
    = Ok (first_match test i vs, g).
Proof.
  intros it h vs it' h' fuel i Hy Hf.
  destruct (first_match test i vs) as [[j v]|] eqn:Hm.
  - apply first_match_Some_split in Hm as (pre & post & -> & -> & Hv & Hn).
    apply yields_split in Hy as (i1 & g1 & i2 & g2 & Hp & En & _).
    exists g2. apply scan_finds with (it1 := i1) (h1 := g1) (it2 := i2);
      try assumption.
    rewrite length_app in Hf. simpl in Hf. lia.
  - exists h'. apply scan_exhausts with (vs := vs) (it' := it');
      assumption.
Qed.
End Scan.

Section ScanningLoops.
Variable this : StreamImpl.

(** A consumer whose loop is a scan returns what the scan finds. *)
Lemma scan_wrapper {A : Type} (f : option (Z * value) -> A)
    (test : Z -> value -> bool) (fuel : nat) (i : Z)
    (loop : State this -> IteratorResult -> M (Store this) A) :
  (forall it nxt h,
      loop it nxt h = fmap f (scan_loop fuel this test it nxt i) h) ->
  forall it h,
    ('(nxt, it1) <- next this it ;; loop it1 nxt) h
    = fmap f ('(nxt, it1) <- next this it ;;
              scan_loop fuel this test it1 nxt i) h.
Proof.
  intros Hl it h. unfold fmap, bind.
  destruct (next this it h) as [[[n i1] g]| |]; try reflexivity.
  rewrite Hl. reflexivity.
Qed.

Lemma consumer_finite {A : Type} (f : option (Z * value) -> A)
    (test : Z -> value -> bool) (fuel : nat) (i : Z)
    (loop : State this -> IteratorResult -> M (Store this) A) :
  (forall it nxt h,
      loop it nxt h = fmap f (scan_loop fuel this test it nxt i) h) ->
  forall h it0 h0 vs it' h',
    startFn this h = Ok (it0, h0) ->
    yields this it0 h0 vs it' h' ->
    List.length vs < fuel ->
    exists g,
      (it <- iterator this ;; '(nxt, it1) <- next this it ;; loop it1 nxt) h
      = Ok (f (first_match test i vs), g).
Proof.
  intros Hl h it0 h0 vs it' h' E Hy Hf.
  destruct (scan_first_match this test it0 h0 vs it' h' fuel i Hy Hf)
    as [g Hs].
  exists g. unfold iterator. rewrite (bind_step _ _ E).
  rewrite (scan_wrapper f test fuel i loop Hl).
  unfold fmap. rewrite (bind_step _ _ Hs). reflexivity.
Qed.

Lemma consumer_stops {A : Type} (f : option (Z * value) -> A)
    (test : Z -> value -> bool) (fuel : nat) (i : Z)
    (loop : State this -> IteratorResult -> M (Store this) A) :
  (forall it nxt h,
      loop it nxt h = fmap f (scan_loop fuel this test it nxt i) h) ->
  forall h it0 h0 pre it1 h1 v it2 h2,
    startFn this h = Ok (it0, h0) ->
    produces this it0 h0 pre it1 h1 ->
    next this it1 h1 = Ok ((IteratorYieldResult v, it2), h2) ->
    first_match test i pre = None ->
    test (i + Z.of_nat (List.length pre))%Z v = true ->
    List.length pre < fuel ->
    (it <- iterator this ;; '(nxt, it3) <- next this it ;; loop it3 nxt) h
    = Ok (f (Some ((i + Z.of_nat (List.length pre))%Z, v)), h2).
Proof.
  intros Hl h it0 h0 pre it1 h1 v it2 h2 E Hp En Hn Ht Hf.
  unfold iterator. rewrite (bind_step _ _ E).
  rewrite (scan_wrapper f test fuel i loop Hl).
  unfold fmap.
  rewrite (bind_step _ _
    (scan_finds this test it0 h0 pre it1 h1 Hp fuel i v it2 h2
       En Hn Ht Hf)).
  reflexivity.
Qed.

Lemma every_loop_scan (p : value -> bool) (fuel : nat) :
  forall it nxt h,
    every_loop fuel this p it nxt h
    = fmap (fun o => match o with Some _ => false | None => true end)
        (scan_loop fuel this (fun _ v => negb (p v)) it nxt 0) h.
Proof.
  generalize 0%Z.
  induction fuel as [|fuel IH]; intros i it nxt h; [reflexivity|].
  simpl. destruct (done nxt); simpl; [reflexivity|].
  destruct (p (value_of nxt)); simpl; [|reflexivity].
  unfold fmap, bind.
  destruct (next this it h) as [[[n i1] g]| |]; try reflexivity.
  rewrite (IH (i + 1)%Z). reflexivity.
Qed.

Lemma some_loop_scan (p : value -> bool) (fuel : nat) :
  forall it nxt h,
    some_loop fuel this p it nxt h
    = fmap (fun o => match o with Some _ => true | None => false end)
        (scan_loop fuel this (fun _ v => p v) it nxt 0) h.
Proof.
  generalize 0%Z.
  induction fuel as [|fuel IH]; intros i it nxt h; [reflexivity|].
  simpl. destruct (done nxt); simpl; [reflexivity|].
  destruct (p (value_of nxt)); simpl; [reflexivity|].
  unfold fmap, bind.
  destruct (next this it h) as [[[n i1] g]| |]; try reflexivity.
  rewrite (IH (i + 1)%Z). reflexivity.
Qed.

Lemma find_loop_scan (p : value -> bool) (fuel : nat) :
  forall it nxt h,
    find_loop fuel this p it nxt h
    = fmap (fun o => match o with Some (_, v) => v | None => VUndefined end)
        (scan_loop fuel this (fun _ v => p v) it nxt 0) h.
Proof.
  generalize 0%Z.
  induction fuel as [|fuel IH]; intros i it nxt h; [reflexivity|].
  simpl. destruct (done nxt); simpl; [reflexivity|].
  destruct (p (value_of nxt)); simpl; [reflexivity|].
  unfold fmap, bind.
  destruct (next this it h) as [[[n i1] g]| |]; try reflexivity.
  rewrite (IH (i + 1)%Z). reflexivity.
Qed.

Lemma findIndex_loop_scan (p : value -> bool) (fuel : nat) :
  forall i it nxt h,
    findIndex_loop fuel this p it nxt i h
    = fmap (fun o => match o with Some (j, _) => j | None => (-1)%Z end)
        (scan_loop fuel this (fun _ v => p v) it nxt i) h.
Proof.
  induction fuel as [|fuel IH]; intros i it nxt h; [reflexivity|].
  simpl. destruct (done nxt); simpl; [reflexivity|].
  destruct (p (value_of nxt)); simpl; [reflexivity|].
  unfold fmap, bind.
  destruct (next this it h) as [[[n i1] g]| |]; try reflexivity.
  rewrite IH. reflexivity.
Qed.

Lemma includes_loop_scan (x : value) (fuel : nat) :
  forall it nxt h,
    includes_loop fuel this x it nxt h
    = fmap (fun o => match o with Some _ => true | None => false end)
        (scan_loop fuel this (fun _ v => strict_equals v x) it nxt 0) h.
Proof.
  generalize 0%Z.
  induction fuel as [|fuel IH]; intros i it nxt h; [reflexivity|].
  simpl. destruct (done nxt); simpl; [reflexivity|].
  destruct (strict_equals (value_of nxt) x); simpl; [reflexivity|].
  unfold fmap, bind.
  destruct (next this it h) as [[[n i1] g]| |]; try reflexivity.
  rewrite (IH (i + 1)%Z). reflexivity.
Qed.

Lemma indexOf_loop_scan (x : value) (fromIndex : Z) (fuel : nat) :
  forall i it nxt h,
    indexOf_loop fuel this x fromIndex it nxt i h
    = fmap (fun o => match o with Some (j, _) => j | None => (-1)%Z end)
        (scan_loop fuel this
           (fun k v => (fromIndex <=? k)%Z && strict_equals v x)
           it nxt i) h.
Proof.
  induction fuel as [|fuel IH]; intros i it nxt h; [reflexivity|].
  simpl. destruct (done nxt); simpl; [reflexivity|].
  destruct ((fromIndex <=? i)%Z && strict_equals (value_of nxt) x); simpl;
    [reflexivity|].
  unfold fmap, bind.
  destruct (next this it h) as [[[n i1] g]| |]; try reflexivity.
  rewrite IH. reflexivity.
Qed.
End ScanningLoops.

Lemma first_match_existsb (q : value -> bool) (vs : list value) :
  forall i,
    match first_match (fun _ v => q v) i vs with
    | Some _ => true
    | None => false
    end = existsb q vs.
Proof.
  induction vs as [|v vs IH]; intros i; simpl; [reflexivity|].
  destruct (q v); [reflexivity | apply IH].
Qed.

Lemma first_match_find (q : value -> bool) (vs : list value) :
  forall i,
    option_map snd (first_match (fun _ v => q v) i vs) = List.find q vs.
Proof.
  induction vs as [|v vs IH]; intros i; simpl; [reflexivity|].
  destruct (q v); [reflexivity | apply IH].
Qed.

Lemma forallb_negb_existsb (q : value -> bool) (vs : list value) :
  forallb q vs = negb (existsb (fun v => negb (q v)) vs).
Proof.
  induction vs as [|v vs IH]; simpl; [reflexivity|].
  rewrite IH. destruct (q v); reflexivity.
Qed.

Lemma first_match_None_intro (test : Z -> value -> bool) (vs : list value) :
  forall i,
    (forall k, k < List.length vs ->
       test (i + Z.of_nat k)%Z (nth k vs VUndefined) = false) ->
    first_match test i vs = None.
Proof.
  induction vs as [|x vs IH]; intros i Hall; simpl; [reflexivity|].
  pose proof (Hall 0 ltac:(simpl; lia)) as H0. simpl in H0.
  rewrite Z.add_0_r in H0. rewrite H0.
  apply IH. intros k Hk.
  replace (i + 1 + Z.of_nat k)%Z with (i + Z.of_nat (S k))%Z by lia.
  apply (Hall (S k)). simpl. lia.
Qed.

Lemma forallb_nth (q : value -> bool) (vs : list value) :
  forallb q vs = true ->
  forall k, k < List.length vs -> q (nth k vs VUndefined) = true.
Proof.
  intros Hq k Hk. rewrite forallb_forall in Hq.
  apply Hq. apply nth_In. exact Hk.
Qed.

(** X1. On a finite stream [every] returns whether all elements pass
    the predicate, [some] whether one does, and [includes] whether one
    is strictly equal to the element searched for. *)
Theorem every_some_includes_quantify (this : StreamImpl)
    (predicate : value -> bool) (searchElement : value) (fuel : nat)
    (h : Store this) (it0 : State this) (h0 : Store this)
    (vs : list value) (it' : State this) (h' : Store this) :
  startFn this h = Ok (it0, h0) ->
  yields this it0 h0 vs it' h' ->
  List.length vs < fuel ->
  (exists g, every fuel predicate this h = Ok (forallb predicate vs, g))
  /\ (exists g, some fuel predicate this h = Ok (existsb predicate vs, g))
  /\ (exists g,
        includes fuel searchElement this h
        = Ok (existsb (fun v => strict_equals v searchElement) vs, g)).
Proof.
  intros E Hy Hf. split; [|split].
  - destruct (consumer_finite this _ _ fuel 0%Z _
                (every_loop_scan this predicate fuel)
                h it0 h0 vs it' h' E Hy Hf) as [g Hg].
    exists g. unfold every. rewrite Hg. f_equal. f_equal.
    rewrite forallb_negb_existsb.
    rewrite <- (first_match_existsb (fun v => negb (predicate v)) vs 0).
    destruct (first_match _ 0 vs); reflexivity.
  - destruct (consumer_finite this _ _ fuel 0%Z _
                (some_loop_scan this predicate fuel)
                h it0 h0 vs it' h' E Hy Hf) as [g Hg].
    exists g. unfold some. rewrite Hg.
    rewrite (first_match_existsb predicate vs 0). reflexivity.
  - destruct (consumer_finite this _ _ fuel 0%Z _
                (includes_loop_scan this searchElement fuel)
                h it0 h0 vs it' h' E Hy Hf) as [g Hg].
    exists g. unfold includes. rewrite Hg.
    rewrite (first_match_existsb
               (fun v => strict_equals v searchElement) vs 0).
    reflexivity.
Qed.

(** X1 at [[1, 2, 3]], asking for the element 2. *)
Lemma every_some_includes_quantify_witness :
  (exists g,
      every 4 (fun v => strict_equals v (VNumber 2))
        (of_array [VNumber 1; VNumber 2; VNumber 3]) tt
      = Ok (false, g))
  /\ (exists g,
        some 4 (fun v => strict_equals v (VNumber 2))
          (of_array [VNumber 1; VNumber 2; VNumber 3]) tt
        = Ok (true, g)).
Proof.
  destruct (every_some_includes_quantify
              (of_array [VNumber 1; VNumber 2; VNumber 3])
              (fun v => strict_equals v (VNumber 2)) (VNumber 2) 4
              tt [VNumber 1; VNumber 2; VNumber 3] tt
              [VNumber 1; VNumber 2; VNumber 3] [] tt
              eq_refl (of_array_yields _) ltac:(simpl; lia))
    as (He & Hs & _).
  split; assumption.
Defined.

(** X2. On a finite stream [find] returns the first element that passes
    the predicate and [findIndex] its position; when no element passes
    they return [undefined] and -1. *)
Theorem find_findIndex_agree (this : StreamImpl)
    (predicate : value -> bool) (fuel : nat)
    (h : Store this) (it0 : State this) (h0 : Store this)
    (vs : list value) (it' : State this) (h' : Store this) :
  startFn this h = Ok (it0, h0) ->
  yields this it0 h0 vs it' h' ->
  List.length vs < fuel ->
  exists r i g1 g2,
    find fuel predicate this h = Ok (r, g1)
    /\ findIndex fuel predicate this h = Ok (i, g2)
    /\ ((i = (-1)%Z /\ r = VUndefined /\ existsb predicate vs = false)
        \/ ((0 <= i < Z.of_nat (List.length vs))%Z
            /\ nth (Z.to_nat i) vs VUndefined = r
            /\ predicate r = true
            /\ forall k, k < Z.to_nat i ->
                 predicate (nth k vs VUndefined) = false)).
Proof.
  intros E Hy Hf.
  destruct (consumer_finite this _ _ fuel 0%Z _
              (find_loop_scan this predicate fuel)
              h it0 h0 vs it' h' E Hy Hf) as [g1 H1].
  destruct (consumer_finite this _ _ fuel 0%Z
              (fun it nxt => findIndex_loop fuel this predicate it nxt 0%Z)
              (findIndex_loop_scan this predicate fuel 0%Z)
              h it0 h0 vs it' h' E Hy Hf) as [g2 H2].
  unfold find, findIndex. rewrite H1, H2.
  do 4 eexists. split; [reflexivity|]. split; [reflexivity|].
  pose proof (first_match_existsb predicate vs 0) as Hex.
  destruct (first_match (fun _ v => predicate v) 0 vs) as [[j v]|] eqn:Hm.
  - right.
    apply first_match_Some_split in Hm as (pre & post & -> & -> & Hv & Hn).
    simpl. rewrite Nat2Z.id. rewrite length_app. simpl.
    repeat split; try lia.
    + apply nth_middle.
    + exact Hv.
    + intros k Hk.
      pose proof (first_match_None_all _ pre 0%Z Hn k Hk) as Hk'.
      simpl in Hk'. rewrite app_nth1 by exact Hk. exact Hk'.
  - left. repeat split. symmetry. exact Hex.
Qed.

(** X2 at [[1, 2, 3]], looking for the element 2. *)
Lemma find_findIndex_agree_witness :
  exists r i g1 g2,
    find 4 (fun v => strict_equals v (VNumber 2))
      (of_array [VNumber 1; VNumber 2; VNumber 3]) tt = Ok (r, g1)
    /\ findIndex 4 (fun v => strict_equals v (VNumber 2))
         (of_array [VNumber 1; VNumber 2; VNumber 3]) tt = Ok (i, g2).
Proof.
  destruct (find_findIndex_agree
              (of_array [VNumber 1; VNumber 2; VNumber 3])
              (fun v => strict_equals v (VNumber 2)) 4
              tt [VNumber 1; VNumber 2; VNumber 3] tt
              [VNumber 1; VNumber 2; VNumber 3] [] tt
              eq_refl (of_array_yields _) ltac:(simpl; lia))
    as (r & i & g1 & g2 & Hf & Hi & _).
  exists r, i, g1, g2. split; assumption.
Defined.

(** X3. On a finite stream [indexOf(x, fromIndex)] returns the least
    index at or after [fromIndex] whose element is strictly equal to
    [x], and -1 when there is none; elements before [fromIndex] are
    passed over but still counted. *)
Theorem indexOf_least_match (this : StreamImpl)
    (searchElement : value) (fromIndex : Z) (fuel : nat)
    (h : Store this) (it0 : State this) (h0 : Store this)
    (vs : list value) (it' : State this) (h' : Store this) :
  startFn this h = Ok (it0, h0) ->
  yields this it0 h0 vs it' h' ->
  List.length vs < fuel ->
  exists i g,
    indexOf fuel searchElement fromIndex this h = Ok (i, g)
    /\ ((i = (-1)%Z
         /\ forall k, k < List.length vs -> (fromIndex <= Z.of_nat k)%Z ->
              strict_equals (nth k vs VUndefined) searchElement = false)
        \/ ((0 <= i < Z.of_nat (List.length vs))%Z
            /\ (fromIndex <= i)%Z
            /\ strict_equals (nth (Z.to_nat i) vs VUndefined) searchElement
               = true
            /\ forall k, k < Z.to_nat i -> (fromIndex <= Z.of_nat k)%Z ->
                 strict_equals (nth k vs VUndefined) searchElement
                 = false)).
Proof.
  intros E Hy Hf.
  destruct (consumer_finite this _ _ fuel 0%Z
              (fun it nxt =>
                 indexOf_loop fuel this searchElement fromIndex it nxt 0%Z)
              (indexOf_loop_scan this searchElement fromIndex fuel 0%Z)
              h it0 h0 vs it' h' E Hy Hf) as [g Hg].
  unfold indexOf. rewrite Hg. do 2 eexists. split; [reflexivity|].
  destruct (first_match _ 0 vs) as [[j v]|] eqn:Hm.
  - right.
    apply first_match_Some_split in Hm as (pre & post & -> & -> & Hv & Hn).
    apply andb_prop in Hv as [Hle Hv]. apply Z.leb_le in Hle.
    simpl in *. rewrite Nat2Z.id. rewrite length_app. simpl.
    repeat split; try lia.
    + rewrite nth_middle. exact Hv.
    + intros k Hk Hfrom.
      pose proof (first_match_None_all _ pre 0%Z Hn k Hk) as Hk'.
      simpl in Hk'. rewrite app_nth1 by exact Hk.
      apply andb_false_iff in Hk' as [Hk'|Hk']; [|exact Hk'].
      apply Z.leb_gt in Hk'. lia.
  - left. split; [reflexivity|]. intros k Hk Hfrom.
    pose proof (first_match_None_all _ vs 0%Z Hm k Hk) as Hk'.
    simpl in Hk'.
    apply andb_false_iff in Hk' as [Hk'|Hk']; [|exact Hk'].
    apply Z.leb_gt in Hk'. lia.
Qed.

(** X3 at [[3, 1, 2, 3].indexOf(3, 1)]. *)
Lemma indexOf_least_match_witness :
  exists i g,
    indexOf 5 (VNumber 3) 1
      (of_array [VNumber 3; VNumber 1; VNumber 2; VNumber 3]) tt
    = Ok (i, g).
Proof.
  destruct (indexOf_least_match
              (of_array [VNumber 3; VNumber 1; VNumber 2; VNumber 3])
              (VNumber 3) 1 5
              tt [VNumber 3; VNumber 1; VNumber 2; VNumber 3] tt
              [VNumber 3; VNumber 1; VNumber 2; VNumber 3] [] tt
              eq_refl (of_array_yields _) ltac:(simpl; lia))
    as (i & g & Hi & _).
  exists i, g. exact Hi.
Defined.

(** X4. The searching consumers stop at the first match and never
    advance the cursor past it: once the cursor has produced elements
    that do not match and then one that does, the result is fixed and
    the store is the one that the matching step left, whatever the
    stream would produce afterwards (it may be unbounded). *)
Theorem search_stops_at_first_match (this : StreamImpl)
    (predicate : value -> bool) (fuel : nat)
    (h : Store this) (it0 : State this) (h0 : Store this)
    (pre : list value) (it1 : State this) (h1 : Store this)
    (v : value) (it2 : State this) (h2 : Store this) :
  startFn this h = Ok (it0, h0) ->
  produces this it0 h0 pre it1 h1 ->
  next this it1 h1 = Ok ((IteratorYieldResult v, it2), h2) ->
  existsb predicate pre = false ->
  predicate v = true ->
  List.length pre < fuel ->
  find fuel predicate this h = Ok (v, h2)
  /\ findIndex fuel predicate this h = Ok (Z.of_nat (List.length pre), h2)
  /\ some fuel predicate this h = Ok (true, h2)
  /\ every fuel (fun w => negb (predicate w)) this h = Ok (false, h2)
  /\ (forall x, (forall w, predicate w = strict_equals w x) ->
        includes fuel x this h = Ok (true, h2)
        /\ indexOf fuel x 0 this h = Ok (Z.of_nat (List.length pre), h2)).
Proof.
  intros E Hp En Hpre Hv Hf.
  assert (Hnth : forall k, k < List.length pre ->
                   predicate (nth k pre VUndefined) = false).
  { intros k Hk.
    destruct (predicate (nth k pre VUndefined)) eqn:Hq; [|reflexivity].
    assert (Hex : existsb predicate pre = true).
    { apply existsb_exists. exists (nth k pre VUndefined).
      split; [apply nth_In; exact Hk | exact Hq]. }
    rewrite Hex in Hpre. discriminate. }
  assert (Hn : first_match (fun _ w => predicate w) 0 pre = None)
    by (apply first_match_None_intro; intros k Hk; apply Hnth; exact Hk).
  split; [|split; [|split; [|split]]].
  - apply (consumer_stops this _ _ fuel 0%Z _
             (find_loop_scan this predicate fuel)
             h it0 h0 pre it1 h1 v it2 h2 E Hp En Hn Hv Hf).
  - apply (consumer_stops this _ _ fuel 0%Z
             (fun it nxt => findIndex_loop fuel this predicate it nxt 0%Z)
             (findIndex_loop_scan this predicate fuel 0%Z)
             h it0 h0 pre it1 h1 v it2 h2 E Hp En Hn Hv Hf).
  - apply (consumer_stops this _ _ fuel 0%Z _
             (some_loop_scan this predicate fuel)
             h it0 h0 pre it1 h1 v it2 h2 E Hp En Hn Hv Hf).
  - apply (consumer_stops this _ _ fuel 0%Z _
             (every_loop_scan this (fun w => negb (predicate w)) fuel)
             h it0 h0 pre it1 h1 v it2 h2 E Hp En).
    + apply first_match_None_intro. intros k Hk.
      rewrite (Hnth k Hk). reflexivity.
    + rewrite Hv. reflexivity.
    + exact Hf.
  - intros x Hx. split.
    + apply (consumer_stops this _ _ fuel 0%Z _
               (includes_loop_scan this x fuel)
               h it0 h0 pre it1 h1 v it2 h2 E Hp En).
      * apply first_match_None_intro. intros k Hk.
        rewrite <- Hx. apply Hnth. exact Hk.
      * rewrite <- Hx. exact Hv.
      * exact Hf.
    + apply (consumer_stops this _ _ fuel 0%Z
               (fun it nxt => indexOf_loop fuel this x 0 it nxt 0%Z)
               (indexOf_loop_scan this x 0 fuel 0%Z)
               h it0 h0 pre it1 h1 v it2 h2 E Hp En).
      * apply first_match_None_intro. intros k Hk.
        rewrite <- Hx, (Hnth k Hk). apply andb_false_r.
      * rewrite <- Hx, Hv. simpl.
        destruct (Z.leb_spec 0 (Z.of_nat (List.length pre))); [reflexivity|lia].
      * exact Hf.
Qed.

(** X4 at [[1, 2, 3]]: the search for 2 stops after two steps and
    leaves the cursor on [[3]]. *)
Lemma search_stops_at_first_match_witness :
  find 2 (fun w => strict_equals w (VNumber 2))
    (of_array [VNumber 1; VNumber 2; VNumber 3]) tt
  = Ok (VNumber 2, tt)
  /\ findIndex 2 (fun w => strict_equals w (VNumber 2))
       (of_array [VNumber 1; VNumber 2; VNumber 3]) tt
     = Ok (Z.of_nat (List.length [VNumber 1]), tt).
Proof.
  assert (Hp : produces (of_array [VNumber 1; VNumber 2; VNumber 3])
                 [VNumber 1; VNumber 2; VNumber 3] tt [VNumber 1]
                 [VNumber 2; VNumber 3] tt).
  { apply produces_cons with (it1 := [VNumber 2; VNumber 3]) (h1 := tt);
      [reflexivity | apply produces_nil]. }
  destruct (search_stops_at_first_match
              (of_array [VNumber 1; VNumber 2; VNumber 3])
              (fun w => strict_equals w (VNumber 2)) 2
              tt [VNumber 1; VNumber 2; VNumber 3] tt
              [VNumber 1] [VNumber 2; VNumber 3] tt
              (VNumber 2) [VNumber 3] tt
              eq_refl Hp eq_refl eq_refl eq_refl ltac:(simpl; lia))
    as (Hf & Hi & _).
  split; assumption.
Defined.

(** ** [forEach] and [join] *)

Lemma forEach_loop_yields (this : StreamImpl) (P : Type)
    (g : value -> Z -> P -> P) :
  forall it h vs it' h',
    yields this it h vs it' h' ->
    forall fuel i env,
      List.length vs < fuel ->
      ('(nxt, it1) <- on_fst (next this it) ;;
       forEach_loop fuel this (fun v k e => Ok (tt, g v k e)) it1 nxt i)
        (h, env)
      = Ok (tt, (h', fold_left (fun e p => g (fst p) (snd p) e)
                       (indexed i vs) env)).
Proof.
  induction 1 as [it h it' h' E | it h v it1 h1 vs it' h' E _ IH];
    intros [|fuel] i env Hf; simpl in *; try lia;
    rewrite (bind_step _ _ (on_fst_Ok _ (h, env) E)); simpl.
  - reflexivity.
  - unfold bind at 1. unfold on_snd at 1. simpl.
    apply IH. lia.
Qed.

(** X5. [forEach] calls the callback once for each element, in the
    order of the stream, with the indices 0, 1, 2, ...: a callback that
    updates what it captured leaves it as the left fold of these calls. *)
Theorem forEach_visits_in_order (this : StreamImpl) (P : Type)
    (g : value -> Z -> P -> P) (fuel : nat)
    (h : Store this) (env : P) (it0 : State this) (h0 : Store this)
    (vs : list value) (it' : State this) (h' : Store this) :
  startFn this h = Ok (it0, h0) ->
  yields this it0 h0 vs it' h' ->
  List.length vs < fuel ->
  forEach fuel (fun v k e => Ok (tt, g v k e)) this (h, env)
  = Ok (tt, (h', fold_left (fun e p => g (fst p) (snd p) e)
                   (indexed 0 vs) env)).
Proof.
  intros E Hy Hf. unfold forEach, iterator.
  rewrite (bind_step _ _ (on_fst_Ok _ (h, env) E)).
  apply forEach_loop_yields with (it' := it'); assumption.
Qed.

(** X5 at [[1, 2]] with a callback that records its arguments. *)
Lemma forEach_visits_in_order_witness :
  forEach 3 (fun v k e => Ok (tt, e ++ [(v, k)]))
    (of_array [VNumber 1; VNumber 2]) (tt, [])
  = Ok (tt, (tt, [(VNumber 1, 0%Z); (VNumber 2, 1%Z)])).
Proof.
  apply (forEach_visits_in_order (of_array [VNumber 1; VNumber 2])
           (list (value * Z)) (fun v k e => e ++ [(v, k)]) 3
           tt [] [VNumber 1; VNumber 2] tt [VNumber 1; VNumber 2] [] tt
           eq_refl (of_array_yields _)).
  simpl. lia.
Defined.

Lemma string_append_assoc (a b c : string) :
  ((a ++ b) ++ c)%string = (a ++ b ++ c)%string.
Proof. induction a as [|x a IH]; simpl; [reflexivity | rewrite IH; reflexivity]. Qed.

Lemma string_append_empty (a : string) : (a ++ "")%string = a.
Proof. induction a as [|x a IH]; simpl; [reflexivity | rewrite IH; reflexivity]. Qed.

Lemma concat_separated (sep t : string) (l : list string) :
  String.concat sep (t :: l) = (t ++ separated sep l)%string.
Proof.
  revert t. induction l as [|u l IH]; intros t.
  - simpl. symmetry. apply string_append_empty.
  - change (String.concat sep (t :: u :: l))
      with (t ++ sep ++ String.concat sep (u :: l))%string.
    rewrite (IH u). reflexivity.
Qed.

Section Join.
Variable host_toString : value -> string.
Variable this : StreamImpl.
Variable separator : string.

Lemma toString_text (v : value) :
  v <> VNull ->
  toString host_toString v = Ok (item_text host_toString v).
Proof. intros Hv. destruct v; try reflexivity. contradiction. Qed.

Lemma join_loop_separated : forall it h vs it' h',
  yields this it h vs it' h' ->
  ~ In VNull vs ->
  forall fuel acc, List.length vs < fuel ->
    join_loop host_toString fuel this separator it acc true h
    = Ok ((acc ++ separated separator
                    (List.map (item_text host_toString) vs))%string, h').
Proof.
  induction 1 as [it h it' h' E | it h v it1 h1 vs it' h' E _ IH];
    intros Hn [|fuel] acc Hf; simpl in *; try lia;
    rewrite (bind_step _ _ E); simpl.
  - rewrite string_append_empty. reflexivity.
  - unfold lift. rewrite toString_text by (intros ->; apply Hn; auto).
    unfold bind at 1.
    rewrite IH by (try lia; intros Hin; apply Hn; auto).
    rewrite !string_append_assoc. reflexivity.
Qed.

Lemma join_loop_throws : forall it h vs it' h',
  yields this it h vs it' h' ->
  In VNull vs ->
  forall fuel acc b, List.length vs < fuel ->
    join_loop host_toString fuel this separator it acc b h
    = Throw TypeError.
Proof.
  induction 1 as [it h it' h' E | it h v it1 h1 vs it' h' E _ IH];
    intros Hin [|fuel] acc b Hf; simpl in *; try lia;
    try contradiction.
  rewrite (bind_step _ _ E). simpl.
  destruct Hin as [->|Hin]; [reflexivity|].
  destruct (toString host_toString v) as [t| |] eqn:Ht;
    unfold lift, bind; simpl.
  - apply IH; [exact Hin | lia].
  - destruct e. reflexivity.
  - destruct v; discriminate.
Qed.
End Join.

(** X6. On a finite stream without [null], [join] returns the texts of
    the elements with the separator between them (a string is its own
    text, [undefined] reads "undefined") and [toString()] is [join]
    with a comma; when an element is [null], [join] throws a
    [TypeError]. *)
Theorem join_concatenates (host_toString : value -> string)
    (this : StreamImpl) (separator : string) (fuel : nat)
    (h : Store this) (it0 : State this) (h0 : Store this)
    (vs : list value) (it' : State this) (h' : Store this) :
  startFn this h = Ok (it0, h0) ->
  yields this it0 h0 vs it' h' ->
  List.length vs < fuel ->
  (~ In VNull vs ->
     join host_toString fuel separator this h
     = Ok (String.concat separator
             (List.map (item_text host_toString) vs), h')
     /\ Stream_toString host_toString fuel this h
        = Ok (String.concat ","
                (List.map (item_text host_toString) vs), h'))
  /\ (In VNull vs ->
        join host_toString fuel separator this h = Throw TypeError).
Proof.
  intros E Hy Hf.
  assert (Hj : forall sep, ~ In VNull vs ->
             join host_toString fuel sep this h
             = Ok (String.concat sep
                     (List.map (item_text host_toString) vs), h')).
  { intros sep Hn. unfold join, iterator. rewrite (bind_step _ _ E).
    inversion Hy as [? ? ? ? En | ? ? v it1 h1 ws ? ? En Hr]; subst;
      destruct fuel as [|fuel]; simpl in Hf; try lia.
    - simpl. rewrite (bind_step _ _ En). reflexivity.
    - cbn [List.map]. rewrite concat_separated.
      cbn [join_loop]. rewrite (bind_step _ _ En).
      cbn [done negb value_of]. unfold lift.
      rewrite toString_text by (intros ->; apply Hn; simpl; auto).
      unfold bind at 1.
      rewrite (join_loop_separated host_toString this sep it1 h1 ws it' h'
                 Hr)
        by (try lia; intros Hin; apply Hn; simpl; auto).
      reflexivity. }
  split.
  - intros Hn. split; [apply Hj; exact Hn|].
    unfold Stream_toString. apply Hj. exact Hn.
  - intros Hin. unfold join, iterator. rewrite (bind_step _ _ E).
    apply join_loop_throws with (vs := vs) (it' := it') (h' := h');
      assumption.
Qed.

(** X6 at [["a", undefined, "b"].join("-")]. *)
Lemma join_concatenates_witness :
  join (fun _ => ""%string) 4 "-"
    (of_array [VString "a"; VUndefined; VString "b"]) tt
  = Ok ("a-undefined-b"%string, tt).
Proof.
  refine (proj1 (proj1
    (join_concatenates (fun _ => ""%string)
       (of_array [VString "a"; VUndefined; VString "b"]) "-" 4
       tt [VString "a"; VUndefined; VString "b"] tt
       [VString "a"; VUndefined; VString "b"] [] tt
       eq_refl (of_array_yields _) _) _)).
  - simpl. lia.
  - intros [H|[H|[H|[]]]]; discriminate.
Defined.

(** ** [filter] and [distinct] *)

Section Filter.
Variable this : StreamImpl.
Variable P : Type.
Variable step : value -> P -> bool * P.

Let predicate : value -> M P bool := fun v env => Ok (step v env).

Lemma predicate_run (v : value) (h : Store this) (env : P) :
  on_snd (predicate v) (h, env)
  = Ok (fst (step v env), (h, snd (step v env))).
Proof.
  unfold on_snd, predicate. simpl. destruct (step v env); reflexivity.
Qed.

(** One run of the loop of the step function of a filtered stream. *)
Lemma filter_loop_step : forall it h vs it' h',
  yields this it h vs it' h' ->
  forall n env, List.length vs < n ->
    (fst (filter_run step env vs) = [] ->
     filter_loop n this predicate it (h, env)
     = Ok ((DONE_RESULT, it'), (h', snd (filter_run step env vs))))
    /\ (forall x out,
          fst (filter_run step env vs) = x :: out ->
          exists it1 h1 env1 vs1,
            filter_loop n this predicate it (h, env)
            = Ok ((IteratorYieldResult x, it1), (h1, env1))
            /\ yields this it1 h1 vs1 it' h'
            /\ List.length vs1 <= List.length vs
            /\ filter_run step env1 vs1
               = (out, snd (filter_run step env vs))).
Proof.
  induction 1 as [it h it' h' E | it h v it1 h1 vs it' h' E Hy IH];
    intros [|n] env Hn; simpl in Hn; try lia; unfold next in E.
  - simpl. rewrite (bind_step _ _ (on_fst_Ok _ (h, env) E)). simpl.
    split; [reflexivity | discriminate].
  - cbn [filter_loop].
    rewrite (bind_step _ _ (on_fst_Ok _ (h, env) E)).
    cbn [done value_of].
    rewrite (bind_step _ _ (predicate_run v h1 env)).
    cbn [filter_run].
    destruct (step v env) as [keep env1] eqn:Es.
    destruct (filter_run step env1 vs) as [out1 envf] eqn:Er.
    destruct keep; cbn [fst snd].
    + split; [discriminate|].
      intros x out Heq. inversion Heq; subst.
      exists it1, h1, env1, vs. repeat split.
      * exact Hy.
      * simpl. lia.
      * exact Er.
    + destruct (IH n env1 ltac:(lia)) as [IH1 IH2].
      rewrite Er in IH1, IH2. cbn [fst snd] in IH1, IH2.
      split; [exact IH1|].
      intros x out Heq.
      destruct (IH2 x out Heq) as (i & g & e & vs1 & El & Hy1 & Hl & Hr).
      exists i, g, e, vs1. repeat split; try assumption. simpl. lia.
Qed.

Lemma filter_yields (fuel : nat) (env0 : P) (out : list value) :
  forall it h env vs it' h' envf,
    yields this it h vs it' h' ->
    List.length vs < fuel ->
    filter_run step env vs = (out, envf) ->
    yields (filter fuel env0 predicate this) it (h, env) out it' (h', envf).
Proof.
  induction out as [|x out IH]; intros it h env vs it' h' envf Hy Hf Hr;
    destruct (filter_loop_step it h vs it' h' Hy fuel env Hf) as [H1 H2];
    rewrite Hr in H1, H2; cbn [fst snd] in H1, H2.
  - apply yields_done. apply H1. reflexivity.
  - destruct (H2 x out eq_refl)
      as (i & g & e & vs1 & El & Hy1 & Hl & Hr1).
    eapply yields_more; [exact El|].
    apply IH with (vs := vs1); try assumption. lia.
Qed.
End Filter.

Lemma filter_run_length (P : Type) (step : value -> P -> bool * P)
    (vs : list value) :
  forall env, List.length (fst (filter_run step env vs)) <= List.length vs.
Proof.
  induction vs as [|v vs IH]; intros env; simpl; [lia|].
  destruct (step v env) as [keep env1].
  specialize (IH env1).
  destruct (filter_run step env1 vs) as [out envf].
  destruct keep; simpl in *; lia.
Qed.

Lemma filter_run_pure (p : value -> bool) (vs : list value) :
  filter_run (fun v (e : unit) => (p v, e)) tt vs = (List.filter p vs, tt).
Proof.
  induction vs as [|v vs IH]; simpl; [reflexivity|].
  rewrite IH. destruct (p v); reflexivity.
Qed.

(** X7. A stream filtered by a predicate without side effects yields
    the elements of the source that pass it, in their order, and
    [toArray] returns those that are not [undefined]. *)
Theorem filter_keeps_passing (this : StreamImpl) (p : value -> bool)
    (fuel : nat) (h : Store this) (it0 : State this) (h0 : Store this)
    (vs : list value) (it' : State this) (h' : Store this) :
  startFn this h = Ok (it0, h0) ->
  yields this it0 h0 vs it' h' ->
  List.length vs < fuel ->
  let filtered :=
    filter fuel tt (fun v (e : unit) => Ok (p v, e)) this in
  iterate fuel filtered (h, tt) = Ok (List.filter p vs, (h', tt))
  /\ toArray fuel filtered (h, tt)
     = Ok (List.filter defined (List.filter p vs), (h', tt)).
Proof.
  intros E Hy Hf filtered.
  assert (Hs : startFn filtered (h, tt) = Ok (it0, (h0, tt)))
    by (apply (on_fst_Ok _ (h, tt) E)).
  assert (Hfy : yields filtered it0 (h0, tt) (List.filter p vs) it' (h', tt)).
  { apply (filter_yields this unit (fun v e => (p v, e)) fuel tt
             (List.filter p vs) it0 h0 tt vs it' h' tt Hy Hf).
    apply filter_run_pure. }
  assert (Hl : List.length (List.filter p vs) < fuel).
  { pose proof (filter_run_length unit (fun v e => (p v, e)) vs tt) as Hle.
    rewrite filter_run_pure in Hle. simpl in Hle. lia. }
  split.
  - apply (@iterate_yields filtered (h, tt) it0 (h0, tt)
             (List.filter p vs) it' (h', tt) fuel Hs Hfy Hl).
  - apply (@toArray_yields filtered (h, tt) it0 (h0, tt)
             (List.filter p vs) it' (h', tt) fuel Hs Hfy Hl).
Qed.

(** X7 at [[1, 2, 1]], keeping the elements equal to 1. *)
Lemma filter_keeps_passing_witness :
  iterate 4
    (filter 4 tt
       (fun v (e : unit) => Ok (strict_equals v (VNumber 1), e))
       (of_array [VNumber 1; VNumber 2; VNumber 1])) (tt, tt)
  = Ok ([VNumber 1; VNumber 1], (tt, tt)).
Proof.
  apply (filter_keeps_passing
           (of_array [VNumber 1; VNumber 2; VNumber 1])
           (fun v => strict_equals v (VNumber 1)) 4
           tt [VNumber 1; VNumber 2; VNumber 1] tt
           [VNumber 1; VNumber 2; VNumber 1] [] tt
           eq_refl (of_array_yields _)).
  simpl. lia.
Defined.

Lemma sameValueZero_refl (a : value) : sameValueZero a a = true.
Proof.
  destruct a; simpl; try reflexivity.
  - destruct b; reflexivity.
  - apply Z.eqb_refl.
  - apply String.eqb_refl.
  - apply Nat.eqb_refl.
  - apply Nat.eqb_refl.
  - apply Nat.eqb_refl.
Qed.

Lemma sameValueZero_sym (a b : value) :
  sameValueZero a b = sameValueZero b a.
Proof.
  destruct a, b; simpl; try reflexivity.
  - destruct b, b0; reflexivity.
  - apply Z.eqb_sym.
  - apply String.eqb_sym.
  - apply Nat.eqb_sym.
  - apply Nat.eqb_sym.
  - apply Nat.eqb_sym.
Qed.

Lemma set_has_add_fresh (set : JsSet) (k x : value) :
  set_has set k = false ->
  set_has (set_add set k) x = set_has set x || sameValueZero x k.
Proof.
  intros Hk. unfold set_add. rewrite Hk. unfold set_has.
  rewrite existsb_app. simpl. rewrite orb_false_r. reflexivity.
Qed.

Section Distinct.
Variable by_ : option (value -> value).

Let key := key_of by_.

(** What one pass of the predicate of [distinct] keeps. *)
Lemma distinct_run : forall vs seen out seen',
  filter_run (distinct_step by_) seen vs = (out, seen') ->
  subsequence out vs
  /\ (forall w, In w out -> set_has seen (key w) = false)
  /\ (forall x, set_has seen x = true -> set_has seen' x = true)
  /\ (forall w, In w out -> set_has seen' (key w) = true)
  /\ ForallOrdPairs
       (fun a b => sameValueZero (key a) (key b) = false) out
  /\ (forall pre v post,
        vs = pre ++ v :: post ->
        set_has seen (key v) = false ->
        (forall u, In u pre -> sameValueZero (key u) (key v) = false) ->
        In v out).
Proof.
  induction vs as [|v vs IH]; intros seen out seen' Hr; simpl in Hr.
  - inversion Hr; subst. repeat split; try (intros; contradiction).
    + constructor.
    + auto.
    + constructor.
    + intros [|? ?] ? ? Heq; discriminate.
  - unfold distinct_step at 1 in Hr. fold (key_of by_ v) in Hr.
    fold key in Hr.
    destruct (set_has seen (key v)) eqn:Hv.
    + destruct (filter_run (distinct_step by_) seen vs) as [o s'] eqn:Er.
      inversion Hr; subst.
      destruct (IH _ _ _ Er) as (Hs & Hn & Hm & Hi & Hp & Hf).
      repeat split; try assumption.
      * apply subsequence_skip. exact Hs.
      * intros pre x post Heq Hx Hpre.
        destruct pre as [|u pre]; simpl in Heq; inversion Heq; subst.
        -- rewrite Hv in Hx. discriminate.
        -- apply (Hf pre x post eq_refl Hx).
           intros w Hw. apply Hpre. right. exact Hw.
    + destruct (filter_run (distinct_step by_) (set_add seen (key v)) vs)
        as [o s'] eqn:Er.
      inversion Hr; subst.
      destruct (IH _ _ _ Er) as (Hs & Hn & Hm & Hi & Hp & Hf).
      assert (Hadd : forall x,
                 set_has (set_add seen (key v)) x
                 = set_has seen x || sameValueZero x (key v))
        by (intros x; apply set_has_add_fresh; exact Hv).
      repeat split.
      * apply subsequence_keep. exact Hs.
      * intros w [<-|Hw]; [exact Hv|].
        pose proof (Hn w Hw) as Hnw. rewrite Hadd in Hnw.
        apply orb_false_elim in Hnw as [Hnw _]. exact Hnw.
      * intros x Hx. apply Hm. rewrite Hadd, Hx. reflexivity.
      * intros w [<-|Hw]; [|apply Hi; exact Hw].
        apply Hm. rewrite Hadd, sameValueZero_refl. apply orb_true_r.
      * constructor; [|exact Hp].
        apply Forall_forall. intros w Hw.
        pose proof (Hn w Hw) as Hnw. rewrite Hadd in Hnw.
        apply orb_false_elim in Hnw as [_ Hnw].
        rewrite sameValueZero_sym. exact Hnw.
      * intros pre x post Heq Hx Hpre.
        destruct pre as [|u pre]; simpl in Heq; inversion Heq; subst.
        -- left. reflexivity.
        -- right. apply (Hf pre x post eq_refl).
           ++ rewrite Hadd, Hx. simpl.
              rewrite sameValueZero_sym. apply Hpre. left. reflexivity.
           ++ intros w Hw. apply Hpre. right. exact Hw.
Qed.
End Distinct.

Lemma filter_loop_ext (this : StreamImpl) (P : Type)
    (p1 p2 : value -> M P bool) :
  (forall v env, p1 v env = p2 v env) ->
  forall n it h,
    filter_loop n this p1 it h = filter_loop n this p2 it h.
Proof.
  intros Hp. induction n as [|n IH]; intros it h; [reflexivity|].
  simpl. unfold bind at 1 3.
  destruct (on_fst (nextFn this it) h) as [[[r i] g]| |]; try reflexivity.
  destruct (done r); [reflexivity|].
  unfold bind, on_snd. rewrite Hp.
  destruct (p2 (value_of r) (snd g)) as [[b e]| |]; try reflexivity.
  destruct b; [reflexivity | apply IH].
Qed.

Lemma distinct_yields (this : StreamImpl) (by_ : option (value -> value))
    (fuel : nat) :
  forall it h vs it' h',
    yields (filter fuel [] (fun v env => Ok (distinct_step by_ v env)) this)
      it h vs it' h' ->
    yields (distinct fuel by_ this) it h vs it' h'.
Proof.
  assert (Hp : forall v env,
             distinct_predicate by_ v env = Ok (distinct_step by_ v env)).
  { intros v env. unfold distinct_predicate, distinct_step.
    destruct (set_has env _); reflexivity. }
  induction 1 as [it h it' h' E | it h v it1 h1 vs it' h' E _ IH].
  - apply yields_done. unfold next in *. simpl in *.
    rewrite (filter_loop_ext this JsSet _ _ Hp). exact E.
  - eapply yields_more; [|exact IH]. unfold next in *. simpl in *.
    rewrite (filter_loop_ext this JsSet _ _ Hp). exact E.
Qed.

(** X8. The first cursor over [distinct(by)] of a finite stream yields
    a subsequence of the source in which no two elements have the same
    key, and which holds every element that no earlier element shares
    its key with: each key is kept at its first occurrence. *)
Theorem distinct_keeps_first_occurrences (this : StreamImpl)
    (by_ : option (value -> value)) (fuel : nat)
    (h : Store this) (it0 : State this) (h0 : Store this)
    (vs : list value) (it' : State this) (h' : Store this) :
  startFn this h = Ok (it0, h0) ->
  yields this it0 h0 vs it' h' ->
  List.length vs < fuel ->
  exists out set',
    iterate fuel (distinct fuel by_ this) (h, []) = Ok (out, (h', set'))
    /\ subsequence out vs
    /\ ForallOrdPairs
         (fun a b => sameValueZero (key_of by_ a) (key_of by_ b) = false)
         out
    /\ (forall pre v post,
          vs = pre ++ v :: post ->
          (forall u, In u pre ->
             sameValueZero (key_of by_ u) (key_of by_ v) = false) ->
          In v out).
Proof.
  intros E Hy Hf.
  destruct (filter_run (distinct_step by_) [] vs) as [out set'] eqn:Er.
  destruct (distinct_run by_ vs [] out set' Er)
    as (Hs & _ & _ & _ & Hp & Hfirst).
  exists out, set'. split; [|split; [|split]].
  - assert (Hl : List.length out < fuel).
    { pose proof (filter_run_length JsSet (distinct_step by_) vs []) as Hle.
      rewrite Er in Hle. simpl in Hle. lia. }
    apply (@iterate_yields (distinct fuel by_ this) (h, []) it0 (h0, [])
             out it' (h', set') fuel).
    + apply (on_fst_Ok _ (h, []) E).
    + apply distinct_yields.
      apply (filter_yields this JsSet (distinct_step by_) fuel [] out
               it0 h0 [] vs it' h' set' Hy Hf Er).
    + exact Hl.
  - exact Hs.
  - exact Hp.
  - intros pre v post Heq Hpre.
    apply (Hfirst pre v post Heq); [reflexivity | exact Hpre].
Qed.

(** X8 at [[3, 1, 2, 3].distinct()]. *)
Lemma distinct_keeps_first_occurrences_witness :
  exists out set',
    iterate 5
      (distinct 5 None
         (of_array [VNumber 3; VNumber 1; VNumber 2; VNumber 3])) (tt, [])
    = Ok (out, (tt, set'))
    /\ subsequence out [VNumber 3; VNumber 1; VNumber 2; VNumber 3].
Proof.
  destruct (distinct_keeps_first_occurrences
              (of_array [VNumber 3; VNumber 1; VNumber 2; VNumber 3])
              None 5 tt
              [VNumber 3; VNumber 1; VNumber 2; VNumber 3] tt
              [VNumber 3; VNumber 1; VNumber 2; VNumber 3] [] tt
              eq_refl (of_array_yields _) ltac:(simpl; lia))
    as (out & set' & Hi & Hs & _).
  exists out, set'. split; assumption.
Defined.

(** ** Stable termination *)

Lemma stable_next (s : StreamImpl) (it : State s) (h : Store s) :
  stable s it h ->
  exists it' h',
    next s it h = Ok ((DONE_RESULT, it'), h') /\ stable s it' h'.
Proof.
  intros (I & Hi & Hstep).
  destruct (Hstep it h Hi) as (it' & h' & En & Hi').
  exists it', h'. split; [exact En|]. exists I. auto.
Qed.

Lemma stable_stays_exhausted (s : StreamImpl) (it : State s) (h : Store s) :
  stable s it h -> stays_exhausted s it h.
Proof.
  intros Hs. destruct (stable_next s it h Hs) as (it' & h' & En & _).
  exists it', h'. exact En.
Qed.

Lemma stable_map (f : value -> value) (this : StreamImpl) it h :
  stable this it h -> stable (map f this) it h.
Proof.
  intros (I & Hi & Hstep). exists I. split; [exact Hi|].
  intros i g Hig. destruct (Hstep i g Hig) as (i' & g' & En & Hi').
  exists i', g'. split; [|exact Hi'].
  unfold next in *. simpl. rewrite (bind_step _ _ En). reflexivity.
Qed.

Lemma stable_tail (skipCount : Z) (this : StreamImpl) it h :
  stable this it h -> stable (tail skipCount this) it h.
Proof.
  intros (I & Hi & Hstep). exists I. split; [exact Hi|]. exact Hstep.
Qed.

Lemma stable_filter (this : StreamImpl) (P : Type) (env0 : P)
    (predicate : value -> M P bool) (fuel : nat) it h env :
  stable this it h ->
  stable (filter (S fuel) env0 predicate this) it (h, env).
Proof.
  intros (I & Hi & Hstep).
  exists (fun i g => I i (fst g)). split; [exact Hi|].
  intros i [g e] Hig. simpl in Hig.
  destruct (Hstep i g Hig) as (i' & g' & En & Hi').
  exists i', (g', e). split; [|exact Hi'].
  unfold next in *. simpl.
  rewrite (bind_step _ _ (on_fst_Ok _ (g, e) En)). reflexivity.
Qed.

Lemma stable_flatMap (this : StreamImpl) (f : value -> value)
    (fuel : nat) it h :
  stable this it h ->
  stable (flatMap (S fuel) f this)
    {| fm_this := it; fm_iterator := None |} h.
Proof.
  intros (I & Hi & Hstep).
  exists (fun st g => I (fm_this st) g /\ fm_iterator st = None).
  split; [split; [exact Hi | reflexivity]|].
  intros [i o] g [Hig Ho]. simpl in Hig, Ho. subst o.
  destruct (Hstep i g Hig) as (i' & g' & En & Hi').
  exists {| fm_this := i'; fm_iterator := None |}, g'.
  split; [|split; [exact Hi' | reflexivity]].
  unfold next in *. simpl. rewrite (bind_step _ _ En). reflexivity.
Qed.

Lemma stable_flat_once (stream : StreamImpl) (fuel : nat) it h :
  stable stream it h ->
  stable (flat_once (S fuel) stream)
    {| fm_this := it; fm_iterator := None |} h.
Proof.
  intros (I & Hi & Hstep).
  exists (fun st g => I (fm_this st) g /\ fm_iterator st = None).
  split; [split; [exact Hi | reflexivity]|].
  intros [i o] g [Hig Ho]. simpl in Hig, Ho. subst o.
  destruct (Hstep i g Hig) as (i' & g' & En & Hi').
  exists {| fm_this := i'; fm_iterator := None |}, g'.
  split; [|split; [exact Hi' | reflexivity]].
  unfold next in *. simpl. rewrite (bind_step _ _ En). reflexivity.
Qed.

Lemma stable_concat (this other : StreamImpl) (iterator0 : State other)
    (h_other : Store other) (st : ConcatState (State this)) h1 it2 h2 :
  firstDone st = true ->
  stable other it2 h2 ->
  stable (concat_stream this other iterator0 h_other) st (h1, (it2, h2)).
Proof.
  intros Hd (I & Hi & Hstep).
  exists (fun s g => s = st /\ fst g = h1 /\ I (fst (snd g)) (snd (snd g))).
  split; [auto|].
  intros s [g1 [i2 g2]] (-> & Hg & Hig). simpl in Hg, Hig. subst g1.
  destruct (Hstep i2 g2 Hig) as (i' & g' & En & Hi').
  exists st, (h1, (i', g')). split; [|auto].
  unfold next. simpl. rewrite Hd. simpl.
  apply concat_rest_Ok with (iterator0 := iterator0) (h_other := h_other).
  exact En.
Qed.

Lemma stable_tree (root : value) (children : value -> list value) (b : bool) :
  stable (TreeStreamImpl root children)
    {| iterators := []; pruned := b |} tt.
Proof.
  exists (fun st _ => iterators st = []). split; [reflexivity|].
  intros [its p] g Hi. simpl in Hi. subst its.
  exists (unpruned []), tt. split; [|reflexivity].
  destruct g. unfold next. simpl. destruct p; reflexivity.
Qed.

Lemma stable_iterable_stream (collection : value) :
  stable (iterable_stream collection) [] tt.
Proof.
  exists (fun it _ => it = []). split; [reflexivity|].
  intros i g ->. exists [], tt. destruct g. split; reflexivity.
Qed.

Lemma stable_arraylike_stream (items : list value) (index : nat) :
  List.length items <= index ->
  stable (arraylike_stream items) index tt.
Proof.
  intros Hle. exists (fun i _ => List.length items <= i).
  split; [exact Hle|].
  intros i g Hi. exists i, tt. destruct g. split; [|exact Hi].
  unfold next. simpl.
  destruct (Nat.ltb_spec i (List.length items)); [lia | reflexivity].
Qed.

(** X9. Stable termination is kept by the engine.  The streams of the
    factory and the tree stream report exhaustion for ever once they
    are exhausted, and [map], [filter], [flatMap], [flat], [tail] and
    [concat] hand this on from their sources. *)
Theorem stable_termination_preserved (this other : StreamImpl)
    (it : State this) (h : Store this)
    (it2 : State other) (h2 : Store other) :
  stable this it h ->
  stable other it2 h2 ->
  (forall f, stable (map f this) it h)
  /\ (forall skipCount, stable (tail skipCount this) it h)
  /\ (forall (P : Type) (env0 env : P) predicate fuel,
        stable (filter (S fuel) env0 predicate this) it (h, env))
  /\ (forall f fuel,
        stable (flatMap (S fuel) f this)
          {| fm_this := it; fm_iterator := None |} h)
  /\ (forall fuel,
        stable (flat_once (S fuel) this)
          {| fm_this := it; fm_iterator := None |} h)
  /\ (forall iterator0 h_other st g,
        firstDone st = true ->
        stable (concat_stream this other iterator0 h_other) st
          (g, (it2, h2)))
  /\ (forall root children b,
        stable (TreeStreamImpl root children)
          {| iterators := []; pruned := b |} tt)
  /\ (forall collection, stable (iterable_stream collection) [] tt)
  /\ (forall items index, List.length items <= index ->
        stable (arraylike_stream items) index tt).
Proof.
  intros Hs Ho. repeat split.
  - intros f. apply stable_map. exact Hs.
  - intros k. apply stable_tail. exact Hs.
  - intros P env0 env p fuel. apply stable_filter. exact Hs.
  - intros f fuel. apply stable_flatMap. exact Hs.
  - intros fuel. apply stable_flat_once. exact Hs.
  - intros i0 g0 st g Hd. apply stable_concat; assumption.
  - intros root children b. apply stable_tree.
  - apply stable_iterable_stream.
  - apply stable_arraylike_stream.
Qed.

(** X9 at the exhausted cursor of an array stream. *)
Lemma stable_termination_preserved_witness :
  stable (map (fun v => v) (of_array [VNumber 1])) [] tt.
Proof.
  apply (proj1 (stable_termination_preserved
                  (of_array [VNumber 1]) (of_array [VNumber 1])
                  [] tt [] tt
                  (stable_iterable_stream _) (stable_iterable_stream _))).
Defined.

(** ** [tail], [head] and [isEmpty] *)

Lemma tail_skip_stable (this : StreamImpl) : forall it h vs it' h',
  yields this it h vs it' h' ->
  stable this it' h' ->
  forall n, exists it1 h1 itf hf,
    tail_skip n this it h = Ok (it1, h1)
    /\ yields this it1 h1 (skipn n vs) itf hf
    /\ stable this itf hf.
Proof.
  induction 1 as [it h it' h' E | it h v it1 h1 vs it' h' E Hy IH];
    intros Hs [|n]; simpl.
  - exists it, h, it', h'. split; [reflexivity|].
    split; [apply yields_done; exact E | exact Hs].
  - destruct (stable_next this it' h' Hs) as (it'' & h'' & Es & Hs').
    exists it', h', it'', h''. split; [|split].
    + unfold next in E. rewrite (bind_step _ _ E). reflexivity.
    + apply yields_done. exact Es.
    + exact Hs'.
  - exists it, h, it', h'. split; [reflexivity|].
    split; [eapply yields_more; eassumption | exact Hs].
  - destruct (IH Hs n) as (i1 & g1 & itf & hf & Et & Hr & Hsf).
    exists i1, g1, itf, hf. split; [|split; assumption].
    unfold next in E. rewrite (bind_step _ _ E). exact Et.
Qed.

Lemma tail_start_stable (this : StreamImpl) (skipCount : Z)
    h it0 h0 vs it' h' :
  startFn this h = Ok (it0, h0) ->
  yields this it0 h0 vs it' h' ->
  stable this it' h' ->
  exists it1 h1 itf hf,
    startFn (tail skipCount this) h = Ok (it1, h1)
    /\ yields (tail skipCount this) it1 h1
         (skipn (Z.to_nat skipCount) vs) itf hf
    /\ stable (tail skipCount this) itf hf.
Proof.
  intros E Hy Hs.
  destruct (tail_skip_stable this it0 h0 vs it' h' Hy Hs
              (Z.to_nat skipCount)) as (i1 & g1 & itf & hf & Et & Hr & Hsf).
  exists i1, g1, itf, hf. split; [|split].
  - simpl. rewrite (bind_step _ _ E). exact Et.
  - apply tail_yields. exact Hr.
  - apply stable_tail. exact Hsf.
Qed.

(** X10. Skipping composes: on a finite stream with stable termination,
    [tail(b)] followed by [tail(a)] yields what [tail(a + b)] yields,
    for counts that are not negative; a negative count skips nothing. *)
Theorem tail_tail_adds (this : StreamImpl) (a b : Z) (fuel : nat)
    (h : Store this) (it0 : State this) (h0 : Store this)
    (vs : list value) (it' : State this) (h' : Store this) :
  startFn this h = Ok (it0, h0) ->
  yields this it0 h0 vs it' h' ->
  stable this it' h' ->
  List.length vs < fuel ->
  ((0 <= a)%Z -> (0 <= b)%Z ->
   exists g1 g2 out,
     iterate fuel (tail a (tail b this)) h = Ok (out, g1)
     /\ iterate fuel (tail (a + b) this) h = Ok (out, g2)
     /\ out = skipn (Z.to_nat (a + b)) vs)
  /\ ((a <= 0)%Z ->
      exists g, iterate fuel (tail a this) h = Ok (vs, g)).
Proof.
  intros E Hy Hs Hf. split.
  - intros Ha Hb.
    destruct (tail_start_stable this b h it0 h0 vs it' h' E Hy Hs)
      as (i1 & g1 & itf & hf & E1 & Y1 & S1).
    destruct (tail_start_stable (tail b this) a h i1 g1 _ itf hf E1 Y1 S1)
      as (i2 & g2 & itf2 & hf2 & E2 & Y2 & _).
    destruct (tail_start_stable this (a + b) h it0 h0 vs it' h' E Hy Hs)
      as (i3 & g3 & itf3 & hf3 & E3 & Y3 & _).
    rewrite skipn_skipn in Y2.
    replace (Z.to_nat a + Z.to_nat b) with (Z.to_nat (a + b)) in Y2
      by lia.
    assert (Hl : List.length (skipn (Z.to_nat (a + b)) vs) < fuel)
      by (rewrite length_skipn; lia).
    exists hf2, hf3, (skipn (Z.to_nat (a + b)) vs).
    split; [|split; [|reflexivity]].
    + apply (@iterate_yields (tail a (tail b this)) h i2 g2 _ itf2 hf2 fuel
               E2 Y2 Hl).
    + apply (@iterate_yields (tail (a + b) this) h i3 g3 _ itf3 hf3 fuel
               E3 Y3 Hl).
  - intros Ha.
    destruct (tail_start_stable this a h it0 h0 vs it' h' E Hy Hs)
      as (i1 & g1 & itf & hf & E1 & Y1 & _).
    replace (Z.to_nat a) with 0 in Y1 by lia. simpl in Y1.
    exists hf.
    apply (@iterate_yields (tail a this) h i1 g1 vs itf hf fuel E1 Y1 Hf).
Qed.

(** X10 at [[1, 2, 3, 4].tail(1).tail(2)]. *)
Lemma tail_tail_adds_witness :
  exists g1 g2 out,
    iterate 5
      (tail 2 (tail 1
         (of_array [VNumber 1; VNumber 2; VNumber 3; VNumber 4]))) tt
    = Ok (out, g1)
    /\ iterate 5
         (tail (2 + 1)
            (of_array [VNumber 1; VNumber 2; VNumber 3; VNumber 4])) tt
       = Ok (out, g2)
    /\ out = skipn (Z.to_nat (2 + 1))
               [VNumber 1; VNumber 2; VNumber 3; VNumber 4].
Proof.
  apply (proj1 (tail_tail_adds
                  (of_array [VNumber 1; VNumber 2; VNumber 3; VNumber 4])
                  2 1 5 tt
                  [VNumber 1; VNumber 2; VNumber 3; VNumber 4] tt
                  [VNumber 1; VNumber 2; VNumber 3; VNumber 4] [] tt
                  eq_refl (of_array_yields _) (stable_iterable_stream _)
                  ltac:(simpl; lia)));
    lia.
Defined.

(** X11. [isEmpty], [head] and [tail()] take a stream apart: on a
    finite stream with stable termination [isEmpty] tells whether there
    is no element, [head] returns the first element ([undefined] when
    there is none), and [tail()] yields all the others, so that a
    non-empty stream is its head followed by its tail. *)
Theorem head_tail_decompose (this : StreamImpl) (fuel : nat)
    (h : Store this) (it0 : State this) (h0 : Store this)
    (vs : list value) (it' : State this) (h' : Store this) :
  startFn this h = Ok (it0, h0) ->
  yields this it0 h0 vs it' h' ->
  stable this it' h' ->
  List.length vs < fuel ->
  exists g1 g2 g3 hd tl,
    isEmpty this h
    = Ok (match vs with [] => true | _ => false end, g1)
    /\ head this h = Ok (hd, g2)
    /\ iterate fuel (tail 1 this) h = Ok (tl, g3)
    /\ hd = List.hd VUndefined vs
    /\ tl = List.tl vs
    /\ (vs <> [] -> vs = hd :: tl).
Proof.
  intros E Hy Hs Hf.
  destruct (tail_start_stable this 1 h it0 h0 vs it' h' E Hy Hs)
    as (i1 & g1 & itf & hf & E1 & Y1 & _).
  assert (Hl : List.length (skipn (Z.to_nat 1) vs) < fuel)
    by (rewrite length_skipn; lia).
  pose proof (@iterate_yields (tail 1 this) h i1 g1 _ itf hf fuel
                E1 Y1 Hl) as Ht.
  inversion Hy as [? ? ? ? En | ? ? v it1 h1 ws ? ? En Hr]; subst.
  - exists h', h', hf, VUndefined, []. repeat split.
    + unfold isEmpty, iterator. rewrite (bind_step _ _ E).
      rewrite (bind_step _ _ En). reflexivity.
    + unfold head, iterator. rewrite (bind_step _ _ E).
      rewrite (bind_step _ _ En). reflexivity.
    + exact Ht.
    + intros Hne. contradiction.
  - exists h1, h1, hf, v, ws. repeat split.
    + unfold isEmpty, iterator. rewrite (bind_step _ _ E).
      rewrite (bind_step _ _ En). reflexivity.
    + unfold head, iterator. rewrite (bind_step _ _ E).
      rewrite (bind_step _ _ En). reflexivity.
    + exact Ht.
Qed.

(** X11 at [[1, 2, 3]]. *)
Lemma head_tail_decompose_witness :
  exists g1 g2 g3 hd tl,
    isEmpty (of_array [VNumber 1; VNumber 2; VNumber 3]) tt
    = Ok (false, g1)
    /\ head (of_array [VNumber 1; VNumber 2; VNumber 3]) tt = Ok (hd, g2)
    /\ iterate 4 (tail 1 (of_array [VNumber 1; VNumber 2; VNumber 3])) tt
       = Ok (tl, g3).
Proof.
  destruct (head_tail_decompose
              (of_array [VNumber 1; VNumber 2; VNumber 3]) 4
              tt [VNumber 1; VNumber 2; VNumber 3] tt
              [VNumber 1; VNumber 2; VNumber 3] [] tt
              eq_refl (of_array_yields _) (stable_iterable_stream _)
              ltac:(simpl; lia))
    as (g1 & g2 & g3 & hd & tl & H1 & H2 & H3 & _).
  exists g1, g2, g3, hd, tl. repeat split; assumption.
Defined.

(** ** How [map], [flat] and [flatMap] compose *)

Lemma flat_loop_map (this : StreamImpl) (f : value -> value) (n : nat) :
  forall (state : FlatMapState (State this)) (h : Store this),
    flat_loop n (map f this) state h = flatMap_loop n this f state h.
Proof.
  induction n as [|n IH]; intros [s o] h; [reflexivity|].
  assert (Hpull :
    ('(r, s') <- nextFn (map f this) s ;;
     if negb (done r) then
       iterable <- lift (isIterable (value_of r)) ;;
       if (iterable : bool) then
         flat_loop n (map f this)
           {| fm_this := s';
              fm_iterator := Some (Symbol_iterator (value_of r)) |}
       else
         ret (IteratorYieldResult (value_of r),
              {| fm_this := s'; fm_iterator := None |})
     else ret (DONE_RESULT, {| fm_this := s'; fm_iterator := None |})) h
    = ('(r, s') <- nextFn this s ;;
       if negb (done r) then
         let mapped := f (value_of r) in
         iterable <- lift (isIterable mapped) ;;
         if (iterable : bool) then
           flatMap_loop n this f
             {| fm_this := s';
                fm_iterator := Some (Symbol_iterator mapped) |}
         else
           ret (IteratorYieldResult mapped,
                {| fm_this := s'; fm_iterator := None |})
       else ret (DONE_RESULT, {| fm_this := s'; fm_iterator := None |})) h).
  { unfold bind. cbn. unfold bind.
    destruct (nextFn this s h) as [[[r s'] g]| |]; try reflexivity.
    destruct r as [v|]; cbn; [|reflexivity].
    unfold lift, ret. destruct (isIterable (f v)) as [[|]| |];
      try reflexivity.
    apply IH. }
  destruct o as [[|x rest]|]; cbn; try exact Hpull; reflexivity.
Qed.

(** Streams with the same start and step functions are iterated alike. *)
Lemma drain_ext (St Ho : Type) (c1 c2 : Ho) (s1 s2 : M Ho St)
    (n1 n2 : St -> M Ho (IteratorResult * St)) :
  (forall st h, n1 st h = n2 st h) ->
  forall k it h,
    drain k (@Build_StreamImpl Ho St c1 s1 n1) it h
    = drain k (@Build_StreamImpl Ho St c2 s2 n2) it h.
Proof.
  intros Hn. induction k as [|k IH]; intros it h; [reflexivity|].
  simpl. unfold bind, next. simpl. rewrite Hn.
  destruct (n2 it h) as [[[r i] g]| |]; try reflexivity.
  destruct r as [v|]; [|reflexivity]. rewrite IH. reflexivity.
Qed.

Lemma toArray_loop_ext (St Ho : Type) (c1 c2 : Ho) (s1 s2 : M Ho St)
    (n1 n2 : St -> M Ho (IteratorResult * St)) :
  (forall st h, n1 st h = n2 st h) ->
  forall k it acc h,
    toArray_loop k (@Build_StreamImpl Ho St c1 s1 n1) it acc h
    = toArray_loop k (@Build_StreamImpl Ho St c2 s2 n2) it acc h.
Proof.
  intros Hn. induction k as [|k IH]; intros it acc h; [reflexivity|].
  simpl. unfold bind, next. simpl. rewrite Hn.
  destruct (n2 it h) as [[[r i] g]| |]; try reflexivity.
  destruct r as [v|]; simpl; [|reflexivity]. apply IH.
Qed.

Lemma iterate_toArray_ext (St Ho : Type) (c1 c2 : Ho) (s1 s2 : M Ho St)
    (n1 n2 : St -> M Ho (IteratorResult * St)) :
  (forall h, s1 h = s2 h) ->
  (forall st h, n1 st h = n2 st h) ->
  forall k h,
    iterate k (@Build_StreamImpl Ho St c1 s1 n1) h
    = iterate k (@Build_StreamImpl Ho St c2 s2 n2) h
    /\ toArray k (@Build_StreamImpl Ho St c1 s1 n1) h
       = toArray k (@Build_StreamImpl Ho St c2 s2 n2) h.
Proof.
  intros Hs Hn k h. unfold iterate, toArray, iterator, bind. simpl.
  rewrite Hs. destruct (s2 h) as [[it g]| |]; try (split; reflexivity).
  rewrite (drain_ext St Ho c1 c2 s1 s2 n1 n2 Hn).
  rewrite (toArray_loop_ext St Ho c1 c2 s1 s2 n1 n2 Hn).
  split; reflexivity.
Qed.

(** X12. [flatMap(f)] is [map(f)] followed by [flat(1)], as its
    documentation says: the two streams have the same start function
    and the same step function, so every cursor over one behaves as a
    cursor over the other, also where the source is unbounded or
    throws. *)
Theorem flatMap_is_map_then_flat (this : StreamImpl)
    (f : value -> value) (fuel : nat) :
  flat fuel 1 (map f this) = flat_once fuel (map f this)
  /\ (forall h,
        startFn (flat_once fuel (map f this)) h
        = startFn (flatMap fuel f this) h)
  /\ (forall st h,
        nextFn (flat_once fuel (map f this)) st h
        = nextFn (flatMap fuel f this) st h)
  /\ (forall k h,
        iterate k (flat_once fuel (map f this)) h
        = iterate k (flatMap fuel f this) h
        /\ toArray k (flat_once fuel (map f this)) h
           = toArray k (flatMap fuel f this) h).
Proof.
  split; [|split; [|split]].
  - rewrite flat_recursion. reflexivity.
  - reflexivity.
  - intros st h. apply flat_loop_map.
  - intros k h.
    apply (iterate_toArray_ext (FlatMapState (State this)) (Store this)
             (captured this) (captured this)
             (startFn (flat_once fuel (map f this)))
             (startFn (flatMap fuel f this))
             (flat_loop fuel (map f this))
             (flatMap_loop fuel this f)).
    + reflexivity.
    + intros st g. apply flat_loop_map.
Qed.

(** X13. Mapping composes: [map(f)] followed by [map(g)] has the step
    function of [map] with the composed callback, so both streams are
    iterated alike. *)
Theorem map_map_fuses (this : StreamImpl) (f g : value -> value) :
  (forall st h,
      nextFn (map g (map f this)) st h
      = nextFn (map (fun v => g (f v)) this) st h)
  /\ (forall k h,
        iterate k (map g (map f this)) h
        = iterate k (map (fun v => g (f v)) this) h
        /\ toArray k (map g (map f this)) h
           = toArray k (map (fun v => g (f v)) this) h).
Proof.
  assert (Hn : forall st h,
             nextFn (map g (map f this)) st h
             = nextFn (map (fun v => g (f v)) this) st h).
  { intros st h. simpl. unfold bind.
    destruct (nextFn this st h) as [[[r i] h1]| |]; try reflexivity.
    destruct r; reflexivity. }
  split; [exact Hn|].
  intros k h.
  apply (iterate_toArray_ext (State this) (Store this)
           (captured this) (captured this)
           (startFn this) (startFn this)
           (nextFn (map g (map f this)))
           (nextFn (map (fun v => g (f v)) this))).
  - reflexivity.
  - exact Hn.
Qed.

(** ** The factory *)





(** ** [prune()] at the edges *)

(** X15. [prune()] only marks the cursor: a second call changes
    nothing, and the step that follows clears the mark.  On a fresh
    cursor, before any element was produced, it cancels the whole
    traversal; on an exhausted cursor it has no effect. *)
Theorem prune_edge_cases (root : value) (children : value -> list value) :
  (exists st0,
      iterator (TreeStreamImpl root children) tt = Ok (st0, tt)
      /\ drain 1 (TreeStreamImpl root children) (prune st0) tt
         = Ok (([], unpruned []), tt))
  /\ (forall st, prune (prune st) = prune st)
  /\ (forall st r st' g,
        next (TreeStreamImpl root children) st tt = Ok ((r, st'), g) ->
        pruned st' = false)
  /\ (forall st, iterators st = [] ->
        next (TreeStreamImpl root children) (prune st) tt
        = Ok ((DONE_RESULT, unpruned []), tt)).
Proof.
  split; [|split; [|split]].
  - exists {| iterators := [children root]; pruned := false |}.
    split; reflexivity.
  - intros st. reflexivity.
  - intros st r st' g En. unfold next in En. simpl in En.
    destruct (tree_loop children
                (if pruned st then tl (iterators st) else iterators st))
      as [r0 its]. inversion En; subst. reflexivity.
  - intros [its p] Hi. simpl in Hi. subst its. reflexivity.
Qed.

(** X15 at the tree A -> [B, C], B -> [D]. *)
Lemma prune_edge_cases_witness :
  pruned (unpruned [[Node (VString "D") []]; [Node (VString "C") []]])
  = false.
Proof.
  apply (proj1 (proj2 (proj2
           (prune_edge_cases (VString "A") example_children)))
           (unpruned [kids example_tree])
           (IteratorYieldResult (VString "B")) _ tt).
  reflexivity.
Defined.

(** ** [reduce] and [reduceRight] with an initial value *)

(** X16. With an initial value that is not [undefined] and a callback
    that never returns [undefined], [reduce] is the left fold of the
    elements from the initial value, and [reduceRight] is the fold that
    starts at the last element. *)
Theorem reduce_with_initial_folds (this : StreamImpl)
    (callbackfn : value -> value -> value) (initialValue : value)
    (fuel : nat) (h : Store this) (it0 : State this) (h0 : Store this)
    (vs : list value) (it' : State this) (h' : Store this) :
  startFn this h = Ok (it0, h0) ->
  yields this it0 h0 vs it' h' ->
  List.length vs < fuel ->
  is_undefined initialValue = false ->
  (forall x y, is_undefined (callbackfn x y) = false) ->
  reduce fuel callbackfn initialValue this h
  = Ok (fold_left callbackfn vs initialValue, h')
  /\ reduceRight fuel callbackfn initialValue this h
     = Ok (fold_right (fun x acc => callbackfn acc x) initialValue vs, h').
Proof.
  intros E Hy Hf Hi Hc. split.
  - rewrite (@reduce_yields this callbackfn h it0 h0 vs it' h' fuel
               initialValue E Hy Hf).
    rewrite (@fold_seed_defined callbackfn vs initialValue Hc Hi).
    reflexivity.
  - rewrite (@reduceRight_yields this callbackfn h it0 h0 vs it' h' fuel
               initialValue E Hy Hf).
    rewrite (@fold_seed_defined callbackfn (rev vs) initialValue Hc Hi).
    rewrite <- fold_left_rev_right, rev_involutive. reflexivity.
Qed.

(** X16 at the sum of [[1, 2, 3]] from 10. *)
Lemma reduce_with_initial_folds_witness :
  reduce 4 add (VNumber 10)
    (of_array [VNumber 1; VNumber 2; VNumber 3]) tt
  = Ok (fold_left add [VNumber 1; VNumber 2; VNumber 3] (VNumber 10), tt).
Proof.
  apply (reduce_with_initial_folds
           (of_array [VNumber 1; VNumber 2; VNumber 3]) add (VNumber 10) 4
           tt [VNumber 1; VNumber 2; VNumber 3] tt
           [VNumber 1; VNumber 2; VNumber 3] [] tt
           eq_refl (of_array_yields _) ltac:(simpl; lia) eq_refl).
  intros [] []; reflexivity.
Defined.

(** ** [concat], associativity and the empty stream *)




(** ** The keyword search of the grammar utilities *)

Section KeywordSearchProperties.
Variable children : value -> list value.
Variable same_element : value -> bool.
Variable is_keyword : value -> bool.

Let visible_in (fs : list (list tree)) : list value :=
  flat_map (flat_map (visible same_element)) fs.

Lemma keyword_loop_pruned (fuel : nat) (node : value)
    (f : list tree) (fs : list (list tree)) (acc : list value) :
  keyword_loop children same_element is_keyword fuel node
    (prune (unpruned (f :: fs))) acc
  = keyword_loop children same_element is_keyword fuel node
      (unpruned fs) acc.
Proof. destruct fuel; reflexivity. Qed.

Lemma keyword_loop_pop (fuel : nat) (node : value)
    (fs : list (list tree)) (acc : list value) :
  keyword_loop children same_element is_keyword fuel node
    (unpruned ([] :: fs)) acc
  = keyword_loop children same_element is_keyword fuel node
      (unpruned fs) acc.
Proof. destruct fuel; reflexivity. Qed.

(** The loop collects the keyword nodes among what is visible of the
    forests on the stack. *)
Lemma keyword_loop_collects (node : value) (n : nat) :
  forall fs fuel acc,
    stack_weight fs <= n ->
    n < fuel ->
    Forall (Forall (unfolds children)) fs ->
    keyword_loop children same_element is_keyword fuel node
      (unpruned fs) acc
    = Ok (acc ++ List.filter is_keyword (visible_in fs)).
Proof.
  induction n as [|n IH]; intros [|[|[v ks] f] fs] [|fuel] acc Hw Hf Hu;
    try lia;
    try (unfold stack_weight in Hw; simpl in Hw; lia).
  - simpl. rewrite app_nil_r. reflexivity.
  - simpl. rewrite app_nil_r. reflexivity.
  - rewrite keyword_loop_pop.
    change (visible_in ([] :: fs)) with (visible_in fs).
    apply IH; [|lia|inversion Hu; subst; assumption].
    unfold stack_weight in *. simpl in *. lia.
  - inversion Hu as [|? ? Hfo Hfs]; subst.
    inversion Hfo as [|? ? Hv Hf']; subst.
    inversion Hv as [? ? Hc Hks]; subst.
    pose proof (stack_weight_node v ks f fs) as Hlt.
    assert (Hstep : next (streamCst children node)
                      (unpruned ((Node v ks :: f) :: fs)) tt
                    = Ok ((IteratorYieldResult v, unpruned (ks :: f :: fs)),
                          tt))
      by (apply (@tree_next_node node children v ks f fs Hc)).
    cbn [keyword_loop]. rewrite Hstep. cbn [done negb value_of].
    unfold visible_in. cbn [flat_map visible].
    destruct (same_element v) eqn:Hs.
    + rewrite (IH (ks :: f :: fs) fuel _ ltac:(lia) ltac:(lia));
        [|repeat constructor; assumption].
      unfold visible_in. cbn [flat_map].
      set (A := flat_map (visible same_element) ks).
      set (B := flat_map (visible same_element) f).
      set (C := flat_map (flat_map (visible same_element)) fs).
      replace (((v :: A) ++ B) ++ C) with (v :: A ++ B ++ C)
        by (simpl; rewrite <- app_assoc; reflexivity).
      cbn [List.filter].
      destruct (is_keyword v); [rewrite <- app_assoc|]; reflexivity.
    + rewrite keyword_loop_pruned.
      assert (Hw2 : stack_weight (f :: fs) <= n).
      { unfold stack_weight, forest_size in *. simpl in *. lia. }
      rewrite (IH (f :: fs) fuel acc Hw2 ltac:(lia));
        [|repeat constructor; assumption].
      unfold visible_in. cbn [flat_map app]. reflexivity.
Qed.
End KeywordSearchProperties.

(** X18. The keyword search walks the tree below [node] in pre-order
    and prunes at every node of another element: when [node] has the
    element searched for and is no keyword itself, the result is the
    keyword nodes, in pre-order, among the descendants that are reached
    through nodes of that element only; such a foreign node and
    everything below it is left out. *)
Theorem keyword_search_prunes_foreign (children : value -> list value)
    (same_element is_keyword : value -> bool)
    (node : value) (t : tree) (fuel : nat) :
  unfolds children t ->
  label t = node ->
  stack_weight [kids t] < fuel ->
  findNodesForKeywordInternal children same_element is_keyword fuel node
  = Ok (if negb (same_element node) then []
        else if is_keyword node then [node]
        else List.filter is_keyword
               (flat_map (visible same_element) (kids t))).
Proof.
  intros Hu Hl Hf. unfold findNodesForKeywordInternal.
  destruct (same_element node); [|reflexivity]. cbn [negb].
  destruct (is_keyword node); [reflexivity|].
  destruct (tree_start Hu Hl) as [Es Hfs].
  unfold iterator, streamCst. rewrite Es.
  rewrite (keyword_loop_collects children same_element is_keyword node
             (stack_weight [kids t]) [kids t] fuel [] (le_n _) Hf Hfs).
  simpl. rewrite app_nil_r. reflexivity.
Qed.

(** X18 at the tree A -> [B, C], B -> [D], where B belongs to another
    element: only C is found. *)
Lemma keyword_search_prunes_foreign_witness :
  findNodesForKeywordInternal example_children
    (fun v => negb (strict_equals v (VString "B")))
    (fun v => negb (strict_equals v (VString "A"))) 8 (VString "A")
  = Ok [VString "C"].
Proof.
  apply (keyword_search_prunes_foreign example_children
           (fun v => negb (strict_equals v (VString "B")))
           (fun v => negb (strict_equals v (VString "A")))
           (VString "A") example_tree 8 example_tree_unfolds eq_refl).
  unfold stack_weight, forest_size. simpl. lia.
Defined.

(** X19. [findNodeForKeyword] never reads outside the nodes found: when
    there are none, or no node is given, it returns [undefined];
    otherwise it returns one of the nodes found, the first for a
    missing or negative index, the last for an index beyond the end,
    and the one at the index otherwise. *)
Theorem findNodeForKeyword_clamps_index (children : value -> list value)
    (same_element is_keyword : value -> bool)
    (node : value) (fuel : nat) (nodes : list value) (index : option Z) :
  findNodesForKeywordInternal children same_element is_keyword fuel node
  = Ok nodes ->
  findNodeForKeyword children same_element is_keyword fuel None index
  = Ok VUndefined
  /\ (nodes = [] ->
      findNodeForKeyword children same_element is_keyword fuel
        (Some node) index = Ok VUndefined)
  /\ (nodes <> [] ->
      exists v,
        findNodeForKeyword children same_element is_keyword fuel
          (Some node) index = Ok v
        /\ In v nodes
        /\ (index = None -> v = nth 0 nodes VUndefined)
        /\ (forall i, index = Some i -> (i <= 0)%Z ->
              v = nth 0 nodes VUndefined)
        /\ (forall i, index = Some i ->
              (Z.of_nat (List.length nodes) - 1 <= i)%Z ->
              v = nth (List.length nodes - 1) nodes VUndefined)
        /\ (forall i, index = Some i ->
              (0 <= i < Z.of_nat (List.length nodes))%Z ->
              v = nth (Z.to_nat i) nodes VUndefined)).
Proof.
  intros Hn. split; [reflexivity|]. split.
  - intros ->. unfold findNodeForKeyword. rewrite Hn. reflexivity.
  - intros Hne. unfold findNodeForKeyword. rewrite Hn.
    assert (Hlen : 0 < List.length nodes)
      by (destruct nodes; [contradiction | simpl; lia]).
    destruct (Nat.eqb_spec (List.length nodes) 0) as [H0|_]; [lia|].
    eexists. split; [reflexivity|].
    split; [|split; [|split; [|split]]].
    + apply nth_In. destruct index as [i|]; lia.
    + intros ->. reflexivity.
    + intros i -> Hi. f_equal. lia.
    + intros i -> Hi. f_equal. lia.
    + intros i -> Hi. f_equal. lia.
Qed.

(** X19 at the nodes found below A in the example tree, with an index
    beyond the end. *)
Lemma findNodeForKeyword_clamps_index_witness :
  exists v,
    findNodeForKeyword example_children (fun _ => true)
      (fun v => negb (strict_equals v (VString "A"))) 8
      (Some (VString "A")) (Some 7%Z) = Ok v
    /\ In v [VString "B"; VString "D"; VString "C"].
Proof.
  destruct (proj2 (proj2
              (findNodeForKeyword_clamps_index example_children
                 (fun _ => true)
                 (fun v => negb (strict_equals v (VString "A"))) (VString "A")
                 8 [VString "B"; VString "D"; VString "C"] (Some 7%Z)
                 eq_refl)) ltac:(discriminate))
    as (v & Hv & Hin & _).
  exists v. split; assumption.
Defined.

(** ** Laziness of [filter] *)

Lemma filter_loop_first_passing (this : StreamImpl) (p : value -> bool) :
  forall it h pre it1 h1,
    produces this it h pre it1 h1 ->
    forall n v it2 h2,
      next this it1 h1 = Ok ((IteratorYieldResult v, it2), h2) ->
      existsb p pre = false ->
      p v = true ->
      List.length pre < n ->
      filter_loop n this (fun w (e : unit) => Ok (p w, e)) it (h, tt)
      = Ok ((IteratorYieldResult v, it2), (h2, tt)).
Proof.
  induction 1 as [it h | it h x it1 h1 pre it' h' E _ IH];
    intros [|n] v it2 h2 En Hpre Hv Hf;
    simpl in Hf; try lia; unfold next in *; simpl in *.
  - rewrite (bind_step _ _ (on_fst_Ok _ (h, tt) En)). simpl.
    unfold bind, on_snd. simpl. rewrite Hv. reflexivity.
  - apply orb_false_elim in Hpre as [Hx Hpre].
    rewrite (bind_step _ _ (on_fst_Ok _ (h, tt) E)). simpl.
    unfold bind at 1. unfold on_snd at 1. simpl. rewrite Hx.
    apply IH; try assumption. lia.
Qed.

(** X20. A filtered stream advances its source no further than the
    element it hands out: when the source produces elements that fail
    the predicate and then one that passes, one step of the filtered
    stream returns that element and leaves the source cursor right
    behind it, whatever the source would produce afterwards. *)
Theorem filter_advances_to_first_passing (this : StreamImpl)
    (p : value -> bool) (fuel : nat)
    (it : State this) (h : Store this) (pre : list value)
    (it1 : State this) (h1 : Store this)
    (v : value) (it2 : State this) (h2 : Store this) :
  produces this it h pre it1 h1 ->
  next this it1 h1 = Ok ((IteratorYieldResult v, it2), h2) ->
  existsb p pre = false ->
  p v = true ->
  List.length pre < fuel ->
  next (filter fuel tt (fun w (e : unit) => Ok (p w, e)) this) it (h, tt)
  = Ok ((IteratorYieldResult v, it2), (h2, tt)).
Proof.
  intros Hp En Hpre Hv Hf. unfold next. simpl.
  apply (filter_loop_first_passing this p it h pre it1 h1 Hp fuel v it2 h2
           En Hpre Hv Hf).
Qed.

(** X20 at [[1, 2, 3]], keeping the elements equal to 2. *)
Lemma filter_advances_to_first_passing_witness :
  next (filter 2 tt
          (fun w (e : unit) => Ok (strict_equals w (VNumber 2), e))
          (of_array [VNumber 1; VNumber 2; VNumber 3]))
    [VNumber 1; VNumber 2; VNumber 3] (tt, tt)
  = Ok ((IteratorYieldResult (VNumber 2), [VNumber 3]), (tt, tt)).
Proof.
  apply (filter_advances_to_first_passing
           (of_array [VNumber 1; VNumber 2; VNumber 3])
           (fun w => strict_equals w (VNumber 2)) 2
           [VNumber 1; VNumber 2; VNumber 3] tt [VNumber 1]
           [VNumber 2; VNumber 3] tt (VNumber 2) [VNumber 3] tt).
  - apply produces_cons with (it1 := [VNumber 2; VNumber 3]) (h1 := tt);
      [reflexivity | apply produces_nil].
  - reflexivity.
  - reflexivity.
  - reflexivity.
  - simpl. lia.
Defined.

(** ** The property search of the grammar utilities *)

Lemma subsequence_nil_l (l : list value) : subsequence [] l.
Proof.
  induction l as [|x l IH]; [constructor | apply subsequence_skip; exact IH].
Qed.

Lemma subsequence_app (a b c d : list value) :
  subsequence a b -> subsequence c d -> subsequence (a ++ c) (b ++ d).
Proof.
  intros Hab Hcd. induction Hab as [|x xs ys _ IH|x xs ys _ IH]; simpl.
  - exact Hcd.
  - apply subsequence_skip. exact IH.
  - apply subsequence_keep. exact IH.
Qed.

Section PropertySearchProperties.
Variable assigns : string -> value -> bool.
Variable composite_of_element : value -> bool.
Variable property : string.

Let search := findNodesForPropertyInternal assigns composite_of_element
                property.

Lemma property_search_subsequence : forall t first,
  subsequence (search t first)
    (if first then descendants t else preorder t).
Proof.
  fix IH 1. intros [n ks] first.
  assert (Hks : subsequence
                  (flat_map (fun e => search e false) ks)
                  (flat_map preorder ks)).
  { induction ks as [|k ks IHks]; simpl; [constructor|].
    apply subsequence_app; [apply (IH k false) | exact IHks]. }
  unfold search. simpl.
  destruct first; simpl.
  - destruct (composite_of_element n); [exact Hks|].
    apply subsequence_nil_l.
  - destruct (assigns property n).
    + apply subsequence_keep. apply subsequence_nil_l.
    + destruct (composite_of_element n).
      * apply subsequence_skip. exact Hks.
      * apply subsequence_nil_l.
Qed.

Lemma property_search_assigned : forall t first v,
  In v (search t first) -> assigns property v = true.
Proof.
  fix IH 1. intros [n ks] first v.
  assert (Hks : In v (flat_map (fun e => search e false) ks) ->
                assigns property v = true).
  { induction ks as [|k ks IHks]; simpl; [contradiction|].
    intros Hin. apply in_app_or in Hin as [Hin|Hin].
    - apply (IH k false v Hin).
    - apply IHks. exact Hin. }
  unfold search. simpl.
  destruct (negb first && assigns property n) eqn:Hm.
  - intros [<-|[]]. apply andb_prop in Hm as [_ Hm]. exact Hm.
  - destruct (composite_of_element n); [exact Hks | contradiction].
Qed.
End PropertySearchProperties.

(** X21. [findNodesForProperty] returns nodes below the given node
    only, in pre-order, each of them parsed for an assignment to the
    property; without a node, and without a property or with the empty
    one, it returns nothing.  [findNodeForProperty] returns
    [undefined] or one of these nodes, whatever the index. *)
Theorem findNodesForProperty_below (assigns : string -> value -> bool)
    (composite_of_element : value -> bool)
    (node : tree) (property : string) (index : option Z) :
  property <> ""%string ->
  subsequence
    (findNodesForProperty assigns composite_of_element
       (Some node) (Some property))
    (descendants node)
  /\ (forall v,
        In v (findNodesForProperty assigns composite_of_element
                (Some node) (Some property)) ->
        assigns property v = true)
  /\ (findNodeForProperty assigns composite_of_element
        (Some node) (Some property) index = VUndefined
      \/ In (findNodeForProperty assigns composite_of_element
               (Some node) (Some property) index)
            (findNodesForProperty assigns composite_of_element
               (Some node) (Some property)))
  /\ findNodesForProperty assigns composite_of_element None (Some property)
     = []
  /\ findNodesForProperty assigns composite_of_element (Some node) None = []
  /\ findNodesForProperty assigns composite_of_element
       (Some node) (Some ""%string) = [].
Proof.
  intros Hp. unfold findNodesForProperty, findNodeForProperty.
  destruct (String.eqb_spec property "") as [->|_]; [contradiction|].
  split; [|split; [|split; [|repeat split]]].
  - apply (property_search_subsequence assigns composite_of_element
             property node true).
  - intros v. apply property_search_assigned.
  - destruct (Nat.eqb_spec
                (List.length
                   (findNodesForPropertyInternal assigns
                      composite_of_element property node true)) 0)
      as [H0|Hne]; [left; reflexivity|].
    right. apply nth_In. destruct index as [i|]; lia.
Qed.

(** X21 at the tree A -> [B, C], B -> [D], where B and D are parsed
    for the property. *)
Lemma findNodesForProperty_below_witness :
  subsequence
    (findNodesForProperty
       (fun _ v => strict_equals v (VString "B")
                   || strict_equals v (VString "D"))
       (fun _ => true) (Some example_tree) (Some "name"%string))
    (descendants example_tree).
Proof.
  apply (findNodesForProperty_below
           (fun _ v => strict_equals v (VString "B")
                       || strict_equals v (VString "D"))
           (fun _ => true) example_tree "name"%string None).
  discriminate.
Defined.

(** ** The generated reflection *)

Module ReflectionProperties.
Import RequirementsAndTestsAstReflection.

Lemma has_colon_append (c p : string) :
  has_colon (c ++ ":" ++ p)%string = true.
Proof.
  induction c as [|a c IH]; [reflexivity|].
  change (has_colon (String a c ++ ":" ++ p)%string)
    with (Ascii.eqb a ":"%char || has_colon (c ++ ":" ++ p)%string).
  rewrite IH. apply orb_true_r.
Qed.

Lemma reference_id_split (c p : string) :
  (c ++ ":" ++ p)%string = "Test:requirements"%string ->
  c = "Test"%string /\ p = "requirements"%string.
Proof.
  intros H.
  destruct c as [|a1 c]; simpl in H; [discriminate|].
  injection H as -> H.
  destruct c as [|a2 c]; simpl in H; [discriminate|].
  injection H as -> H.
  destruct c as [|a3 c]; simpl in H; [discriminate|].
  injection H as -> H.
  destruct c as [|a4 c]; simpl in H; [discriminate|].
  injection H as -> H.
  destruct c as [|a5 c]; simpl in H.
  - injection H as ->. split; reflexivity.
  - injection H as -> H.
    pose proof (has_colon_append c p) as Hc. simpl in Hc.
    rewrite H in Hc. discriminate.
Qed.

(** X22. The generated reflection resolves one reference only:
    [getReferenceType] returns a type exactly for the property
    [requirements] of a [Test], that type is [Requirement], which
    [getAllTypes] lists, and for every other reference it throws;
    [isSubtype] relates a type to itself only, and the meta data of a
    type always carries the name it was asked for. *)
Theorem reflection_resolves_one_reference :
  (forall c p t,
      getReferenceType c p = inr t
      <-> c = "Test"%string /\ p = "requirements"%string
          /\ t = "Requirement"%string)
  /\ (forall c p t, getReferenceType c p = inr t -> In t getAllTypes)
  /\ (forall a b, isSubtype a b = true <-> a = b)
  /\ (forall type, name (getTypeMetaData type) = type).
Proof.
  assert (Hiff : forall c p t,
             getReferenceType c p = inr t
             <-> c = "Test"%string /\ p = "requirements"%string
                 /\ t = "Requirement"%string).
  { intros c p t. unfold getReferenceType. split.
    - destruct (String.eqb_spec (c ++ ":" ++ p) "Test:requirements")
        as [He|_]; [|discriminate].
      intros Ht. injection Ht as <-.
      destruct (reference_id_split c p He) as [-> ->]. auto.
    - intros (-> & -> & ->). reflexivity. }
  split; [exact Hiff|]. split; [|split].
  - intros c p t Ht. apply Hiff in Ht as (_ & _ & ->).
    simpl. auto.
  - intros a b. unfold isSubtype.
    destruct (String.eqb_spec a b); split; congruence.
  - intros type. unfold getTypeMetaData.
    destruct (String.eqb_spec type "RequirementModel") as [->|_];
      [reflexivity|].
    destruct (String.eqb_spec type "Test") as [->|_]; [reflexivity|].
    destruct (String.eqb_spec type "TestModel") as [->|_]; reflexivity.
Qed.

(** X22 at the reference [Test:requirements]. *)
Lemma reflection_resolves_one_reference_witness :
  In "Requirement"%string getAllTypes.
Proof.
  apply (proj1 (proj2 reflection_resolves_one_reference)
           "Test"%string "requirements"%string "Requirement"%string).
  reflexivity.
Defined.

End ReflectionProperties.
